(** * A sharded token-bucket rate limiter (package [rate]): model and properties

    The development embeds [bucket.go] in Rocq: fixed-width integers are [Z]
    with their wrap-around written out, the shared bucket array is a list of
    64-bit words, and the limiter's methods run in a small state monad whose
    outcomes distinguish a normal return from a Go run-time panic. *)

From Stdlib Require Import ZArith Lia Bool String.
From Stdlib.Init Require Import Byte.
From Stdlib Require Import Floats.PrimFloat Floats.SpecFloat Floats.FloatOps.
From stdpp Require Import base tactics option list.

Local Open Scope Z_scope.

(** * Part I: the model *)

(** ** Fixed-width integers *)

(** [uint8(x)]: the low 8 bits. *)
Definition uint8 (x : Z) : Z := x mod 2 ^ 8.

(** [uint64(x)]; also Go's [uint] on the 64-bit targets that the FNV offset
    basis in [index] requires. *)
Definition uint64 (x : Z) : Z := x mod 2 ^ 64.

(** [int64(x)], and Go's [int] on the same targets: two's-complement reading
    of the low 64 bits. *)
Definition int64 (x : Z) : Z := (x + 2 ^ 63) mod 2 ^ 64 - 2 ^ 63.

Definition is_uint8 (x : Z) : Prop := 0 <= x < 2 ^ 8.
Definition is_uint64 (x : Z) : Prop := 0 <= x < 2 ^ 64.
Definition is_int64 (x : Z) : Prop := - 2 ^ 63 <= x < 2 ^ 63.

(** ** Outcomes of Go code: a value, a run-time panic, or a loop that used up
    the iterations it was given. *)

Inductive outcome (A : Type) : Type :=
  | Ret (a : A)
  | Panic (msg : string)
  | Spin.
Arguments Ret {A} a.
Arguments Panic {A} msg.
Arguments Spin {A}.

(** ** Package time56 *)

Module time56.

Definition bits : Z := 56.
Definition modulus : Z := 2 ^ bits.
Definition mask : Z := modulus - 1.
Definition half : Z := 2 ^ (bits - 1).

(** A 56-bit wrapping timestamp. *)
Definition Time : Type := Z.

Definition is_time (t : Time) : Prop := 0 <= t < modulus.

(** Modelled from the spec: package time56 is not among the sources.
    [Unix] reduces a nanosecond count to "a value that wraps modulo 2^56". *)
Definition Unix (ns : Z) : Time := Z.land (uint64 ns) mask.

(** Modelled from the spec: package time56 is not among the sources.
    "Elapsed time between two stamps is computed as (now - stamp) mod 2^56,
    re-interpreted as signed within a valid window". *)
Definition Since (t u : Time) : Z :=
  let d := (t - u) mod modulus in
  if d <? half then d else d - modulus.

(** Modelled from the spec: package time56 is not among the sources.
    Wraparound-safe subtraction of a duration from a stamp. *)
Definition Sub (t : Time) (ns : Z) : Time := (t - ns) mod modulus.

(** Modelled from the spec: package time56 is not among the sources.
    "[level] in the most significant 8 bits and [stamp] in the remaining 56
    bits". *)
Definition Pack (t : Time) (v : Z) : Z := Z.lor (Z.shiftl v bits) t.

(** Modelled from the spec: package time56 is not among the sources.
    The decoding of [Pack]: the level, then the stamp. *)
Definition Unpack (p : Z) : Z * Time := (Z.shiftr p bits, Z.land p mask).

End time56.

(** ** Buckets *)

Record tokenBucket : Type := newTokenBucket {
  level : Z;            (* uint8: current number of tokens *)
  stamp : time56.Time;  (* last time the bucket was refilled *)
}.

(** Go's [==] on the struct: both fields equal. *)
Definition tokenBucket_eqb (a b : tokenBucket) : bool :=
  (level a =? level b) && (stamp a =? stamp b).

(** [tokenBucket.refill].  Go's [/] and [%] on signed integers truncate toward
    zero ([Z.quot], [Z.rem]) and a zero divisor panics. *)
Definition refill (b : tokenBucket) (nowNS rate maxLevel : Z) : outcome tokenBucket :=
  let now := time56.Unix nowNS in
  let elapsed := time56.Since now (stamp b) in
  if elapsed <=? 0 then Ret b
  else if rate =? 0 then Panic "runtime error: integer divide by zero"
  else
    let tokens := int64 (Z.quot elapsed rate) in
    if tokens <=? 0 then Ret b
    else
      let avail := uint8 (maxLevel - level b) in
      let level' :=
        if tokens <? avail then uint8 (level b + uint8 tokens)
        else maxLevel in
      if negb (level b =? level') then
        let remainder := int64 (Z.rem elapsed rate) in
        Ret {| level := level'; stamp := time56.Sub now remainder |}
      else Ret b.

(** [tokenBucket.take]. *)
Definition take (b : tokenBucket) : tokenBucket * bool :=
  if 0 <? level b
  then ({| level := uint8 (level b - 1); stamp := stamp b |}, true)
  else (b, false).

(** [tokenBucket.packed] and [unpack]. *)
Definition packed (b : tokenBucket) : Z := time56.Pack (stamp b) (level b).

Definition unpack (p : Z) : tokenBucket :=
  let '(v, t) := time56.Unpack p in newTokenBucket v t.

(** ** The atomic word array *)

Abbreviation atomicSliceUint64 := (list Z) (only parsing).

Definition out_of_range : string := "runtime error: index out of range".

(** The longest array of 64-bit words that Go's [make] accepts on 64-bit
    targets: [maxAlloc] is [2^48] bytes. *)
Definition max_slice_len : Z := 2 ^ 45.

(** Modelled from the spec: the atomic array type is not among the sources.
    "Fixed-length array, indexable 0..N-1"; a negative length, and one past
    [max_slice_len], is refused the way Go's [make] refuses it.  Whether the
    machine has the memory for a shorter array is outside the model. *)
Definition newAtomicSliceUint64 (size : Z) : outcome atomicSliceUint64 :=
  if (size <? 0) || (max_slice_len <? size)
  then Panic "runtime error: makeslice: len out of range"
  else Ret (replicate (Z.to_nat size) 0).

(** Modelled from the spec: [Load(i)] of the atomic array. *)
Definition slice_Get (s : atomicSliceUint64) (i : Z) : outcome Z :=
  if i <? 0 then Panic out_of_range
  else match s !! Z.to_nat i with
       | Some w => Ret w
       | None => Panic out_of_range
       end.

(** Modelled from the spec: the store of the atomic array. *)
Definition slice_Set (s : atomicSliceUint64) (i v : Z) : outcome atomicSliceUint64 :=
  if i <? 0 then Panic out_of_range
  else match s !! Z.to_nat i with
       | Some _ => Ret (<[Z.to_nat i := v]> s)
       | None => Panic out_of_range
       end.

(** Modelled from the spec: [CompareAndSwap(i, expected, new)] replaces the
    word only when it still holds [expected], and says whether it did. *)
Definition slice_CompareAndSwap (s : atomicSliceUint64) (i old new : Z)
  : outcome (bool * atomicSliceUint64) :=
  if i <? 0 then Panic out_of_range
  else match s !! Z.to_nat i with
       | Some w =>
           if w =? old then Ret (true, <[Z.to_nat i := new]> s)
           else Ret (false, s)
       | None => Panic out_of_range
       end.

(** ** The limiter *)

Record TokenBucketLimiter : Type := mkLimiter {
  buckets : atomicSliceUint64;   (* array of token buckets *)
  bucketMask : Z;                (* uint: bit mask for IDs to buckets *)
  burstCapacity : Z;             (* uint8: maximum tokens per bucket *)
  refillIntervalNanos : Z;       (* int64: nanoseconds per token refill *)
  numBuckets : Z;                (* uint: number of buckets *)
  refillRate : float;            (* original refill rate value *)
  refillRateUnit : Z;            (* time.Duration: unit of the refill rate *)
}.

Definition with_buckets (t : TokenBucketLimiter) (s : atomicSliceUint64)
  : TokenBucketLimiter :=
  mkLimiter s (bucketMask t) (burstCapacity t) (refillIntervalNanos t)
    (numBuckets t) (refillRate t) (refillRateUnit t).

(** [float64(x)] of an [int64]: the nearest binary64 value. *)
Definition float64_of_int64 (x : Z) : float :=
  SF2Prim (binary_normalize prec emax x 0 false).

(** [int64(f)] of a [float64]: the fraction is discarded.  For a value that
    [int64] cannot represent (also NaN and the infinities) Go leaves the
    result to the implementation; amd64's answer, the smallest [int64], is
    the one modelled. *)
Definition int64_of_float64 (f : float) : Z :=
  match Prim2SF f with
  | S754_zero _ => 0
  | S754_finite s m e =>
      let mag := if 0 <=? e then Z.shiftl (Z.pos m) e else Z.shiftr (Z.pos m) (- e) in
      let v := if s then - mag else mag in
      if (- 2 ^ 63 <=? v) && (v <? 2 ^ 63) then v else - 2 ^ 63
  | _ => - 2 ^ 63
  end.

(** [nanoRate]. *)
Definition nanoRate (refillRateUnit : Z) (refillRate : float) : Z :=
  int64_of_float64 (PrimFloat.mul (float64_of_int64 refillRateUnit) refillRate).

(** The loop of the constructor: [buckets.Set(int(i), packed)] for [i] from
    [i] on, [n] times. *)
Fixpoint fill_buckets (n : nat) (i : Z) (word : Z) (s : atomicSliceUint64)
  : outcome atomicSliceUint64 :=
  match n with
  | O => Ret s
  | S n' =>
      match slice_Set s (int64 i) word with
      | Ret s' => fill_buckets n' (i + 1) word s'
      | Panic m => Panic m
      | Spin => Spin
      end
  end.

(** [NewTokenBucketLimiter]; [clock] is what [nowfn().UnixNano()] reads.  The
    result is Go's pair of a (possibly nil) limiter and a (possibly nil)
    error. *)
Definition NewTokenBucketLimiter
    (numBuckets burstCapacity : Z) (refillRate : float) (refillRateUnit : Z)
    (clock : Z)
  : outcome (option TokenBucketLimiter * option string) :=
  let powerOfTwo :=
    negb (numBuckets =? 0)
    && (Z.land numBuckets (uint64 (numBuckets - 1)) =? 0) in
  if negb powerOfTwo then
    Ret (None, Some "numBuckets must be a power of two"%string)
  else
    let now := clock in
    let stamp := time56.Unix now in
    let bucket := newTokenBucket burstCapacity stamp in
    let word := packed bucket in
    match newAtomicSliceUint64 (int64 numBuckets) with
    | Ret fresh =>
        match fill_buckets (Z.to_nat numBuckets) 0 word fresh with
        | Ret filled =>
            Ret (Some {| burstCapacity := burstCapacity;
                         numBuckets := numBuckets;
                         refillRate := refillRate;
                         refillRateUnit := refillRateUnit;
                         refillIntervalNanos := nanoRate refillRateUnit refillRate;
                         bucketMask := uint64 (numBuckets - 1);
                         buckets := filled |},
                 None)
        | Panic m => Panic m
        | Spin => Spin
        end
    | Panic m => Panic m
    | Spin => Spin
    end.

(** ** The state monad of the limiter's methods *)

Definition M (A : Type) : Type :=
  TokenBucketLimiter -> outcome A * TokenBucketLimiter.

Definition mret {A} (a : A) : M A := fun t => (Ret a, t).

Definition mbind {A B} (m : M A) (k : A -> M B) : M B :=
  fun t =>
    match m t with
    | (Ret a, t') => k a t'
    | (Panic msg, t') => (Panic msg, t')
    | (Spin, t') => (Spin, t')
    end.

Notation "x <- m ;; k" := (mbind m (fun x => k))
  (at level 100, m at next level, right associativity).

(** A pure step that may panic. *)
Definition lift {A} (o : outcome A) : M A := fun t => (o, t).

(** Reading a field of the receiver. *)
Definition reads {A} (f : TokenBucketLimiter -> A) : M A := fun t => (Ret (f t), t).

(** [t.buckets.Get(index)]. *)
Definition buckets_Get (index : Z) : M Z :=
  fun t => (slice_Get (buckets t) index, t).

(** [t.buckets.CompareAndSwap(index, old, new)]. *)
Definition buckets_CompareAndSwap (index old new : Z) : M bool :=
  fun t =>
    match slice_CompareAndSwap (buckets t) index old new with
    | Ret (ok, s') => (Ret ok, with_buckets t s')
    | Panic m => (Panic m, t)
    | Spin => (Spin, t)
    end.

(** ** The limiter's methods; [now] is what [nowfn().UnixNano()] reads. *)

Definition fnv_offset : Z := 14695981039346656037.
Definition fnv_prime : Z := 1099511628211.

(** The body of the loop of [index]: [h ^= uint(b); h *= 1099511628211]. *)
Definition fnv_step (h : Z) (b : byte) : Z :=
  uint64 (Z.lxor h (Z.of_N (Byte.to_N b)) * fnv_prime).

(** [TokenBucketLimiter.index]. *)
Definition index (t : TokenBucketLimiter) (id : list byte) : Z :=
  let h := fold_left fnv_step id fnv_offset in
  int64 (Z.land h (bucketMask t)).

(** [TokenBucketLimiter.checkInner]. *)
Definition checkInner (index rate now : Z) : M bool :=
  existing <- buckets_Get index ;;
  let bucket := unpack existing in
  cap <- reads burstCapacity ;;
  refilled <- lift (refill bucket now rate cap) ;;
  mret (0 <? level refilled).

(** [TokenBucketLimiter.takeTokenInner]: the [for] loop, run for at most
    [fuel] iterations. *)
Fixpoint takeTokenInner_loop (fuel : nat) (index rate now : Z) : M bool :=
  match fuel with
  | O => lift Spin
  | S fuel' =>
      existing <- buckets_Get index ;;
      let unpacked := unpack existing in
      cap <- reads burstCapacity ;;
      refilled <- lift (refill unpacked now rate cap) ;;
      let '(updated, taken) := take refilled in
      if negb (tokenBucket_eqb updated unpacked) then
        swapped <- buckets_CompareAndSwap index existing (packed updated) ;;
        if negb swapped then takeTokenInner_loop fuel' index rate now
        else mret taken
      else mret taken
  end.

Definition takeTokenInner (fuel : nat) (index rate now : Z) : M bool :=
  takeTokenInner_loop fuel index rate now.

(** [TokenBucketLimiter.Check]. *)
Definition Check (id : list byte) (now : Z) : M bool :=
  fun t => checkInner (index t id) (refillIntervalNanos t) now t.

(** [TokenBucketLimiter.TakeToken]. *)
Definition TakeToken (fuel : nat) (id : list byte) (now : Z) : M bool :=
  fun t => takeTokenInner fuel (index t id) (refillIntervalNanos t) now t.

(** ** Sequences of calls *)

Inductive call : Type :=
  | CallCheck (id : list byte) (now : Z)
  | CallTakeToken (id : list byte) (now : Z).

Definition do_call (fuel : nat) (c : call) : M bool :=
  match c with
  | CallCheck id now => Check id now
  | CallTakeToken id now => TakeToken fuel id now
  end.

(** The calls one after the other, each with its answer; a call that does not
    return ends the run, with the answers so far and the state it left. *)
Fixpoint run (fuel : nat) (cs : list call) (t : TokenBucketLimiter)
  : list bool * outcome unit * TokenBucketLimiter :=
  match cs with
  | [] => ([], Ret tt, t)
  | c :: cs' =>
      match do_call fuel c t with
      | (Ret b, t') =>
          let '(bs, o, t'') := run fuel cs' t' in (b :: bs, o, t'')
      | (Panic m, t') => ([], Panic m, t')
      | (Spin, t') => ([], Spin, t')
      end
  end.

(** ** The refill algorithm as the specification words it *)

(** The wraparound-safe subtraction of the data model. *)
Definition wrappingDifference (now stamp : time56.Time) : Z :=
  time56.Since now stamp.

(** Steps 1 to 6 of the refill algorithm: integer division rounds down, the
    new level is a minimum, and a changed level advances the stamp by
    [elapsed - (elapsed mod rate)], on the 56-bit wrapping clock. *)
Definition refill_spec (b : tokenBucket) (now rate capacity : Z) : tokenBucket :=
  let elapsed := wrappingDifference (time56.Unix now) (stamp b) in
  if elapsed <=? 0 then b
  else
    let tokensAccrued := elapsed / rate in
    if tokensAccrued <=? 0 then b
    else
      let newLevel := Z.min capacity (level b + tokensAccrued) in
      if newLevel =? level b then b
      else {| level := newLevel;
              stamp := (stamp b + (elapsed - elapsed mod rate)) mod 2 ^ 56 |}.

(** ** FNV-1a as the specification words it: start from the offset basis;
    for each byte, xor it in, then multiply by the prime, on 64 bits. *)
Fixpoint FNV1a64_from (h : Z) (id : list byte) : Z :=
  match id with
  | [] => h
  | b :: rest =>
      FNV1a64_from ((Z.lxor h (Z.of_N (Byte.to_N b)) * 1099511628211) mod 2 ^ 64) rest
  end.

Definition FNV1a64 (id : list byte) : Z :=
  FNV1a64_from 14695981039346656037 id.

(** ** Invariants *)

Definition is_pow2 (n : Z) : Prop := exists k, 0 <= k /\ n = 2 ^ k.

(** A decoded bucket within the burst capacity. *)
Definition level_in_range (cap : Z) (b : tokenBucket) : Prop :=
  0 <= level b <= cap.

(** Every bucket of the limiter decodes to a level within the capacity. *)
Definition buckets_in_range (t : TokenBucketLimiter) : Prop :=
  Forall (fun w => level_in_range (burstCapacity t) (unpack w)) (buckets t).

(** What the constructor establishes and every method keeps. *)
Record limiter_ok (t : TokenBucketLimiter) : Prop := {
  ok_capacity : is_uint8 (burstCapacity t);
  ok_words : Forall is_uint64 (buckets t);
  ok_levels : buckets_in_range t;
  ok_length : Z.of_nat (length (buckets t)) = numBuckets t;
  ok_mask : bucketMask t = numBuckets t - 1;
  ok_pow2 : exists k, 0 <= k < 63 /\ numBuckets t = 2 ^ k;
}.

(** What one iteration of the loop of [takeTokenInner] computes between its
    load and its compare-and-swap: the word to install, if the bucket
    changed, and the answer. *)
Definition attempt (existing now rate cap : Z) : outcome (option Z * bool) :=
  match refill (unpack existing) now rate cap with
  | Ret refilled =>
      let '(updated, taken) := take refilled in
      if negb (tokenBucket_eqb updated (unpack existing))
      then Ret (Some (packed updated), taken)
      else Ret (None, taken)
  | Panic m => Panic m
  | Spin => Spin
  end.

(** ** Counting admissions *)

(** The answers of a run. *)
Definition answers (r : list bool * outcome unit * TokenBucketLimiter) : list bool :=
  fst (fst r).

(** The level of bucket [i], decoded. *)
Definition bucket_level (t : TokenBucketLimiter) (i : Z) : Z :=
  match buckets t !! Z.to_nat i with
  | Some w => level (unpack w)
  | None => 0
  end.

(** How many of the calls [cs], answered [bs], were [TakeToken] calls on
    bucket [i] that returned true. *)
Fixpoint successes (t : TokenBucketLimiter) (i : Z) (cs : list call) (bs : list bool) : Z :=
  match cs, bs with
  | CallTakeToken id _ :: cs', true :: bs' =>
      (if index t id =? i then 1 else 0) + successes t i cs' bs'
  | _ :: cs', _ :: bs' => successes t i cs' bs'
  | _, _ => 0
  end.

(** ** Polling a bucket *)

(** [refill] called at each of the instants [nows] in turn, each call on the
    bucket the previous one returned. *)
Fixpoint refill_many (b : tokenBucket) (nows : list Z) (rate cap : Z)
  : outcome tokenBucket :=
  match nows with
  | [] => Ret b
  | now :: rest =>
      match refill b now rate cap with
      | Ret b' => refill_many b' rest rate cap
      | Panic m => Panic m
      | Spin => Spin
      end
  end.

(** The instants reached from [t] by waiting the intervals [ds] one after the
    other. *)
Fixpoint poll_times (t : Z) (ds : list Z) : list Z :=
  match ds with
  | [] => []
  | d :: rest => (t + d) :: poll_times (t + d) rest
  end.

Definition total (ds : list Z) : Z := fold_right Z.add 0 ds.

(** Non-drift at one subdivision [ds] of a wait of [total ds] nanoseconds that
    starts at [t0], the instant of the bucket's stamp: polling at every
    subdivision credits [total ds / rate] tokens and leaves the stamp where
    the whole tokens end, and so does one refill at the end of the wait. *)
Definition non_drift_at (b : tokenBucket) (t0 rate cap : Z) (ds : list Z) : Prop :=
  let credited := total ds / rate in
  let final := {| level := level b + credited;
                  stamp := time56.Unix (t0 + rate * credited) |} in
  refill_many b (poll_times t0 ds) rate cap = Ret final
  /\ refill b (t0 + total ds) rate cap = Ret final.

(** ** Calls that find nothing to refill *)

(** At instant [now] a bucket stamped [s] is due nothing: the rate is
    negative, or no time has passed since the stamp. *)
Definition idle (rate now : Z) (s : time56.Time) : Prop :=
  rate < 0 \/ time56.Since (time56.Unix now) s <= 0.

(** The stamps of the buckets, in order. *)
Definition stamps (t : TokenBucketLimiter) : list time56.Time :=
  map (fun w => stamp (unpack w)) (buckets t).

(** No bucket of the limiter is due anything at [now]. *)
Definition quiet (t : TokenBucketLimiter) (now : Z) : Prop :=
  Forall (idle (refillIntervalNanos t) now) (stamps t).

Definition call_now (c : call) : Z :=
  match c with CallCheck _ now => now | CallTakeToken _ now => now end.

(** ** Concurrent callers of [TakeToken]

    Callers share the limiter and take turns at its array: a turn is one
    access to the array (the load, or the compare-and-swap) together with the
    computation local to the caller that follows it.  A schedule says whose
    turn it is. *)

(** Where a caller of [TakeToken(id)] stands, after it has read the clock. *)
Inductive caller : Type :=
  | Entered (id : list byte) (now : Z)
  | Swapping (id : list byte) (now : Z) (existing new : Z) (taken : bool)
  | Returned (id : list byte) (now : Z) (taken : bool)
  | Panicked (id : list byte) (now : Z) (msg : string).

Definition caller_call (c : caller) : call :=
  match c with
  | Entered id now | Swapping id now _ _ _
  | Returned id now _ | Panicked id now _ => CallTakeToken id now
  end.

(** One turn of a caller: from [Entered], the load of the loop of
    [takeTokenInner] and what it computes from the word; from [Swapping], the
    compare-and-swap, after which the caller returns or goes round the loop
    again. *)
Definition caller_step (c : caller) (t : TokenBucketLimiter)
  : caller * TokenBucketLimiter :=
  match c with
  | Entered id now =>
      match slice_Get (buckets t) (index t id) with
      | Ret existing =>
          match attempt existing now (refillIntervalNanos t) (burstCapacity t) with
          | Ret (Some new, taken) => (Swapping id now existing new taken, t)
          | Ret (None, taken) => (Returned id now taken, t)
          | Panic m => (Panicked id now m, t)
          | Spin => (c, t)
          end
      | Panic m => (Panicked id now m, t)
      | Spin => (c, t)
      end
  | Swapping id now existing new taken =>
      match slice_CompareAndSwap (buckets t) (index t id) existing new with
      | Ret (true, s') => (Returned id now taken, with_buckets t s')
      | Ret (false, _) => (Entered id now, t)
      | Panic m => (Panicked id now m, t)
      | Spin => (c, t)
      end
  | Returned _ _ _ | Panicked _ _ _ => (c, t)
  end.

Record system : Type := mkSystem {
  shared : TokenBucketLimiter;
  callers : list caller;
}.

Definition is_panicked (c : caller) : bool :=
  match c with Panicked _ _ _ => true | _ => false end.

Definition is_returned (c : caller) : bool :=
  match c with Returned _ _ _ => true | _ => false end.

Definition is_entered (c : caller) : bool :=
  match c with Entered _ _ => true | _ => false end.

(** A turn of caller [k]; a panic has ended the process. *)
Definition turn (sys : system) (k : nat) : system :=
  if existsb is_panicked (callers sys) then sys
  else match callers sys !! k with
       | Some c =>
           let '(c', t') := caller_step c (shared sys) in
           {| shared := t'; callers := <[k := c']> (callers sys) |}
       | None => sys
       end.

Definition exec (sched : list nat) (sys : system) : system :=
  fold_left turn sched sys.

(** The callers that returned true, and those that returned false. *)
Definition won (c : caller) : Z :=
  match c with Returned _ _ true => 1 | _ => 0 end.

Definition lost (c : caller) : Z :=
  match c with Returned _ _ false => 1 | _ => 0 end.

Definition tally (f : caller -> Z) (cs : list caller) : Z :=
  fold_right (fun c n => f c + n) 0 cs.

Definition trues (bs : list bool) : Z :=
  fold_right (fun (b : bool) n => (if b then 1 else 0) + n) 0 bs.

(** A linearization point: caller [ev_caller] returned [ev_taken] from
    [TakeToken(ev_id)] with the clock at [ev_now]. *)
Record event : Type := mkEvent {
  ev_caller : nat;
  ev_id : list byte;
  ev_now : Z;
  ev_taken : bool;
}.

Definition ev_call (e : event) : call := CallTakeToken (ev_id e) (ev_now e).

(** [lin] linearizes the calls that have returned in [sys], started from the
    limiter [t0]: it lists each of them once, and the same calls made one
    after the other in that order, on [t0], give the same answers and leave
    the limiter as the callers left it. *)
Record linearizes (t0 : TokenBucketLimiter) (sys : system) (lin : list event)
  : Prop := {
  lin_once : NoDup (map ev_caller lin);
  lin_returned : forall k id now b,
    callers sys !! k = Some (Returned id now b) <-> mkEvent k id now b ∈ lin;
  lin_run :
    run 1 (map ev_call lin) t0 = (map ev_taken lin, Ret tt, shared sys);
}.

(** What every schedule keeps, besides the linearization itself: the
    limiter's invariant, the premise of each pending compare-and-swap, the
    calls the callers are making, and the counts. *)
Record coherent (t0 : TokenBucketLimiter) (cs0 : list caller) (sys : system)
    (lin : list event) : Prop := {
  coh_lin : linearizes t0 sys lin;
  coh_ok : limiter_ok (shared sys);
  coh_swapping : forall k id now existing new taken,
    callers sys !! k = Some (Swapping id now existing new taken) ->
    attempt existing now (refillIntervalNanos (shared sys))
      (burstCapacity (shared sys)) = Ret (Some new, taken);
  coh_calls : map caller_call (callers sys) = map caller_call cs0;
  coh_won : tally won (callers sys) = trues (map ev_taken lin);
  coh_lost : tally lost (callers sys)
             = Z.of_nat (length lin) - trues (map ev_taken lin);
}.

(** ** Auxiliary predicates and the configurations of the examples *)

(** The refill function does at one input what the specification's algorithm
    says. *)
Definition refill_as_specified (b : tokenBucket) (now rate capacity : Z) : Prop :=
  refill b now rate capacity = Ret (refill_spec b now rate capacity).

(** The configuration never changes. *)
Definition same_config (t t' : TokenBucketLimiter) : Prop :=
  bucketMask t' = bucketMask t /\ burstCapacity t' = burstCapacity t
  /\ refillIntervalNanos t' = refillIntervalNanos t
  /\ numBuckets t' = numBuckets t.

(** The test of the constructor. *)
Definition powerOfTwo (numBuckets : Z) : bool :=
  negb (numBuckets =? 0) && (Z.land numBuckets (uint64 (numBuckets - 1)) =? 0).

(** The calls that only peek. *)
Definition is_check (c : call) : Prop :=
  match c with CallCheck _ _ => True | CallTakeToken _ _ => False end.

(** The limiter of the failing configuration: one bucket, capacity 5, a
    refill rate of zero tokens per second. *)
Definition zero_rate_limiter : TokenBucketLimiter :=
  {| buckets := [packed (newTokenBucket 5 0)];
     bucketMask := 0;
     burstCapacity := 5;
     refillIntervalNanos := 0;
     numBuckets := 1;
     refillRate := 0%float;
     refillRateUnit := 1000000000 |}.

(** [time.Second], in nanoseconds. *)
Definition second : Z := 1000000000.

(** The calls of the concrete scenario: six at time 0, two a second later. *)
Definition scenario_calls : list call :=
  let x := list_byte_of_string "x" in
  [CallTakeToken x 0; CallTakeToken x 0; CallTakeToken x 0;
   CallTakeToken x 0; CallTakeToken x 0; CallTakeToken x 0;
   CallTakeToken x second; CallTakeToken x second].

(** A limiter of four buckets, as constructed at time 0. *)
Definition four_buckets : TokenBucketLimiter :=
  {| buckets := replicate 4 (packed (newTokenBucket 5 0));
     bucketMask := 3;
     burstCapacity := 5;
     refillIntervalNanos := second;
     numBuckets := 4;
     refillRate := 1%float;
     refillRateUnit := second |}.

(** Three callers race for the two tokens of a limiter constructed at time 0
    with one bucket; the second caller's swap goes first, the first caller
    loses its swap, loads again and succeeds, and the third then finds the
    bucket empty. *)
Definition race_schedule : list nat := [0; 1; 2; 1; 0; 0; 0; 2; 2]%nat.

(** The limiter of the race: one bucket of capacity 2, constructed at time 0. *)
Definition race_limiter : TokenBucketLimiter :=
  {| buckets := [packed (newTokenBucket 2 0)];
     bucketMask := 0;
     burstCapacity := 2;
     refillIntervalNanos := second;
     numBuckets := 1;
     refillRate := 1%float;
     refillRateUnit := second |}.

(** The three callers, all of [TakeToken("x")] with the clock at 0. *)
Definition race_callers : list caller :=
  replicate 3 (Entered (list_byte_of_string "x") 0).

(** No caller has panicked. *)
Definition alive (sys : system) : Prop :=
  Forall (fun c => is_panicked c = false) (callers sys).

(** Caller [j] has returned. *)
Definition returned_at (sys : system) (j : nat) : Prop :=
  exists id now b, callers sys !! j = Some (Returned id now b).

(** How many turns a caller still needs, at most, when the others stand
    still: a compare-and-swap that will succeed, a load and a swap, or a
    failed swap first. *)
Definition distance (c : caller) (t : TokenBucketLimiter) : nat :=
  match c with
  | Returned _ _ _ | Panicked _ _ _ => 0
  | Entered _ _ => 2
  | Swapping id _ existing _ _ =>
      if decide (buckets t !! Z.to_nat (index t id) = Some existing) then 1 else 3
  end.

(** The schedule that gives each of [n] callers three turns in a row. *)
Definition one_by_one (n : nat) : list nat :=
  flat_map (fun k => [k; k; k]) (seq 0 n).

(** At instant [now] a bucket stamped [s] accrues no whole token: the rate is
    negative, no time has passed since the stamp, or less than one interval
    has. *)
Definition calm (rate now : Z) (s : time56.Time) : Prop :=
  rate < 0
  \/ time56.Since (time56.Unix now) s <= 0
  \/ time56.Since (time56.Unix now) s < rate.

(** A limiter is the limiter [t] with other contents in its array, of the
    same length. *)
Definition same_but_buckets (t t' : TokenBucketLimiter) : Prop :=
  exists s, t' = with_buckets t s /\ length s = length (buckets t).

(** The identifiers of the examples. *)
Definition id_a : list byte := list_byte_of_string "a".
Definition id_x : list byte := list_byte_of_string "x".

(** A limiter of sixty-four buckets of three tokens, as constructed at
    time 0. *)
Definition sixty_four_buckets : TokenBucketLimiter :=
  {| buckets := replicate 64 (packed (newTokenBucket 3 0));
     bucketMask := 63;
     burstCapacity := 3;
     refillIntervalNanos := second;
     numBuckets := 64;
     refillRate := 1%float;
     refillRateUnit := second |}.

(** Seven callers of [TakeToken("x")], all with the clock at three seconds;
    they all load before any of them swaps, then finish one by one. *)
Definition idle_race_callers : list caller :=
  replicate 7 (Entered id_x (3 * second)).

Definition idle_race_schedule : list nat := seq 0 7 ++ one_by_one 7.

(** The limiter of minus one token per minus one second, one bucket of
    capacity 1, as constructed at time 0. *)
Definition backwards_limiter : TokenBucketLimiter :=
  {| buckets := [packed (newTokenBucket 1 0)];
     bucketMask := 0;
     burstCapacity := 1;
     refillIntervalNanos := second;
     numBuckets := 1;
     refillRate := (-1)%float;
     refillRateUnit := - second |}.

(** * Part II: properties *)

(** ** Fixed-width integers *)

Lemma uint8_id x : is_uint8 x -> uint8 x = x.
Proof. unfold is_uint8, uint8. intros. apply Z.mod_small. lia. Qed.

Lemma uint8_range x : is_uint8 (uint8 x).
Proof. unfold is_uint8, uint8. apply Z.mod_pos_bound. lia. Qed.

Lemma uint64_id x : is_uint64 x -> uint64 x = x.
Proof. unfold is_uint64, uint64. intros. apply Z.mod_small. lia. Qed.

Lemma uint64_range x : is_uint64 (uint64 x).
Proof. unfold is_uint64, uint64. apply Z.mod_pos_bound. lia. Qed.

Lemma int64_id x : is_int64 x -> int64 x = x.
Proof.
  unfold is_int64, int64. intros.
  rewrite Z.mod_small by lia. lia.
Qed.

Lemma int64_range x : is_int64 (int64 x).
Proof.
  unfold is_int64, int64.
  pose proof (Z.mod_pos_bound (x + 2 ^ 63) (2 ^ 64)). lia.
Qed.

(** ** The wrapping clock *)

Lemma modulus_eq : time56.modulus = 2 ^ 56.
Proof. reflexivity. Qed.

Lemma half_eq : time56.half = 2 ^ 55.
Proof. reflexivity. Qed.

Lemma Unix_mod ns : time56.Unix ns = ns mod 2 ^ 56.
Proof.
  unfold time56.Unix, uint64.
  change time56.mask with (Z.ones 56).
  rewrite Z.land_ones by lia.
  change (2 ^ 64) with (2 ^ 56 * 2 ^ 8).
  rewrite Z.rem_mul_r by lia.
  rewrite Z.mul_comm, Z_mod_plus_full.
  apply Z.mod_mod. lia.
Qed.

Lemma Unix_is_time ns : time56.is_time (time56.Unix ns).
Proof.
  rewrite Unix_mod. unfold time56.is_time. rewrite modulus_eq.
  apply Z.mod_pos_bound. lia.
Qed.

(** [Since] differs from the plain difference by a multiple of the modulus. *)
Lemma Since_cong t u : exists k, time56.Since t u = t - u + k * 2 ^ 56.
Proof.
  unfold time56.Since. rewrite modulus_eq.
  pose proof (Z.div_mod (t - u) (2 ^ 56) ltac:(lia)) as E.
  destruct (_ <? _).
  - exists (- ((t - u) / 2 ^ 56)). lia.
  - exists (- ((t - u) / 2 ^ 56) - 1). lia.
Qed.

Lemma Since_range t u : - 2 ^ 55 <= time56.Since t u < 2 ^ 55.
Proof.
  unfold time56.Since. rewrite modulus_eq, half_eq.
  pose proof (Z.mod_pos_bound (t - u) (2 ^ 56) ltac:(lia)).
  destruct (Z.ltb_spec ((t - u) mod 2 ^ 56) (2 ^ 55)); lia.
Qed.

(** Within half the modulus the wrapping difference is the true one. *)
Lemma Since_Unix a b :
  - 2 ^ 55 <= b - a < 2 ^ 55 ->
  time56.Since (time56.Unix b) (time56.Unix a) = b - a.
Proof.
  intros H.
  destruct (Since_cong (time56.Unix b) (time56.Unix a)) as [k Hk].
  pose proof (Since_range (time56.Unix b) (time56.Unix a)) as R.
  rewrite !Unix_mod in *.
  pose proof (Z.div_mod a (2 ^ 56) ltac:(lia)).
  pose proof (Z.div_mod b (2 ^ 56) ltac:(lia)).
  lia.
Qed.

Lemma Sub_Unix t r : time56.Sub (time56.Unix t) r = time56.Unix (t - r).
Proof.
  unfold time56.Sub. rewrite modulus_eq, !Unix_mod.
  rewrite Zminus_mod_idemp_l. reflexivity.
Qed.

(** ** Refill against its specification *)

(** For a positive elapsed time, truncated and floored division agree on the
    sign of the quotient, and coincide when the rate is positive. *)
Lemma quot_div_pos e r : 0 < e -> 0 < r -> Z.quot e r = e / r /\ Z.rem e r = e mod r.
Proof.
  intros He Hr. split.
  - apply Z.quot_div_nonneg; lia.
  - apply Z.rem_mod_nonneg; lia.
Qed.

Lemma quot_neg_rate e r : 0 < e -> r < 0 -> Z.quot e r <= 0 /\ e / r <= 0.
Proof.
  intros He Hr. split.
  - rewrite <- (Z.opp_involutive r), Z.quot_opp_r by lia.
    pose proof (Z.quot_pos e (- r) ltac:(lia) ltac:(lia)). lia.
  - pose proof (Z.div_mod e r ltac:(lia)).
    pose proof (Z.mod_neg_bound e r ltac:(lia)). nia.
Qed.

Lemma quot_bound e r : 0 < e -> r <> 0 -> - e <= Z.quot e r <= e.
Proof.
  intros He Hr.
  destruct (Z.lt_ge_cases 0 r).
  - pose proof (Z.quot_pos e r ltac:(lia) ltac:(lia)).
    pose proof (Z.quot_le_upper_bound e r e ltac:(lia) ltac:(nia)). lia.
  - rewrite <- (Z.opp_involutive r), Z.quot_opp_r by lia.
    pose proof (Z.quot_pos e (- r) ltac:(lia) ltac:(lia)).
    pose proof (Z.quot_le_upper_bound e (- r) e ltac:(lia) ltac:(nia)). lia.
Qed.

Lemma rem_bound e r : 0 < e -> r <> 0 -> 0 <= Z.rem e r <= e.
Proof.
  intros He Hr.
  pose proof (Z.rem_nonneg e r ltac:(lia) ltac:(lia)).
  pose proof (Z.quot_rem' e r).
  pose proof (quot_bound e r He Hr).
  destruct (Z.lt_ge_cases 0 r).
  - pose proof (Z.quot_pos e r ltac:(lia) ltac:(lia)). nia.
  - assert (Z.quot e r <= 0) by (apply quot_neg_rate; lia). nia.
Qed.

(** The stamp of a changed bucket: "now minus the remainder" is the old stamp
    advanced by the time spent on whole tokens. *)
Lemma advance_stamp now s r :
  time56.Sub (time56.Unix now) r
  = (s + (time56.Since (time56.Unix now) s - r)) mod 2 ^ 56.
Proof.
  destruct (Since_cong (time56.Unix now) s) as [k ->].
  unfold time56.Sub. rewrite modulus_eq.
  replace (s + (time56.Unix now - s + k * 2 ^ 56 - r))
    with (time56.Unix now - r + k * 2 ^ 56) by lia.
  rewrite Z_mod_plus_full. reflexivity.
Qed.

Lemma refill_meets_spec b now rate capacity :
  is_uint8 (level b) -> is_uint8 capacity -> level b <= capacity -> rate <> 0 ->
  refill b now rate capacity = Ret (refill_spec b now rate capacity).
Proof.
  intros HL HC Hle Hr.
  unfold refill, refill_spec, wrappingDifference.
  set (e := time56.Since (time56.Unix now) (stamp b)).
  pose proof (Since_range (time56.Unix now) (stamp b)) as Re. fold e in Re.
  destruct (Z.leb_spec e 0) as [|He]; [reflexivity|].
  destruct (Z.eqb_spec rate 0) as [|_]; [lia|].
  pose proof (quot_bound e rate He Hr) as Bq.
  pose proof (rem_bound e rate He Hr) as Br.
  rewrite (int64_id (Z.quot e rate)) by (unfold is_int64; lia).
  rewrite (int64_id (Z.rem e rate)) by (unfold is_int64; lia).
  destruct (Z.lt_ge_cases 0 rate) as [Hpos|Hneg].
  - destruct (quot_div_pos e rate He Hpos) as [-> ->].
    destruct (Z.leb_spec (e / rate) 0) as [|Hq]; [reflexivity|].
    unfold is_uint8 in *.
    rewrite (uint8_id (capacity - level b)) by (unfold is_uint8; lia).
    destruct (Z.ltb_spec (e / rate) (capacity - level b)) as [Hlt|Hge].
    + rewrite (uint8_id (e / rate)) by (unfold is_uint8; lia).
      rewrite (uint8_id (level b + e / rate)) by (unfold is_uint8; lia).
      rewrite Z.min_r by lia.
      destruct (Z.eqb_spec (level b) (level b + e / rate)); [lia|].
      destruct (Z.eqb_spec (level b + e / rate) (level b)); [lia|].
      simpl. rewrite (advance_stamp now (stamp b)). reflexivity.
    + rewrite Z.min_l by lia.
      destruct (Z.eqb_spec (level b) capacity) as [Heq|Hne].
      * rewrite <- Heq, Z.eqb_refl. reflexivity.
      * destruct (Z.eqb_spec capacity (level b)); [lia|].
        simpl. rewrite (advance_stamp now (stamp b)). reflexivity.
  - destruct (quot_neg_rate e rate He ltac:(lia)) as [Hq Hd].
    destruct (Z.leb_spec (Z.quot e rate) 0); [|lia].
    destruct (Z.leb_spec (e / rate) 0); [|lia].
    reflexivity.
Qed.

Lemma refill_spec_unchanged_level b now rate capacity :
  level (refill_spec b now rate capacity) = level b ->
  refill_spec b now rate capacity = b.
Proof.
  unfold refill_spec.
  repeat (case_match; try reflexivity).
  simpl. intros E.
  match goal with H : (_ =? _) = false |- _ => apply Z.eqb_neq in H end.
  congruence.
Qed.

Lemma refill_spec_changed_stamp b now rate capacity :
  level (refill_spec b now rate capacity) <> level b ->
  stamp (refill_spec b now rate capacity)
  = time56.Sub (time56.Unix now)
      (wrappingDifference (time56.Unix now) (stamp b) mod rate).
Proof.
  unfold refill_spec.
  repeat (case_match; try congruence).
  intros _. simpl. unfold wrappingDifference.
  symmetry. apply advance_stamp.
Qed.

Lemma refill_spec_saturated b now rate capacity :
  is_uint8 (level b) -> level b = capacity ->
  refill_spec b now rate capacity = b.
Proof.
  intros HL <-. unfold refill_spec.
  repeat (case_match; try reflexivity).
  repeat match goal with
         | H : (_ =? _) = false |- _ => apply Z.eqb_neq in H
         | H : (_ <=? _) = false |- _ => apply Z.leb_gt in H
         end.
  unfold is_uint8 in HL. lia.
Qed.

(** Wherever it returns, [refill] follows the specification: for a bucket
    within its capacity, at a rate other than zero or with no time elapsed,
    it returns what steps 1 to 6 compute: the bucket unchanged when the
    wrapping elapsed time or the floored quotient is not positive, else the
    level [min(capacity, level + elapsed / rate)]; the stamp moves exactly
    when the level does, to now minus the remainder (the old stamp advanced
    by [elapsed - elapsed mod rate]); a saturated bucket is returned as it
    is. *)
Theorem refill_follows_spec b now rate capacity :
  is_uint8 (level b) -> is_uint8 capacity -> level b <= capacity ->
  rate <> 0 \/ wrappingDifference (time56.Unix now) (stamp b) <= 0 ->
  refill b now rate capacity = Ret (refill_spec b now rate capacity)
  /\ (level (refill_spec b now rate capacity) = level b ->
      refill b now rate capacity = Ret b)
  /\ (level (refill_spec b now rate capacity) <> level b ->
      stamp (refill_spec b now rate capacity)
      = time56.Sub (time56.Unix now)
          (wrappingDifference (time56.Unix now) (stamp b) mod rate))
  /\ (level b = capacity -> refill b now rate capacity = Ret b).
Proof.
  intros HL HC Hle Hr.
  assert (refill b now rate capacity = Ret (refill_spec b now rate capacity)) as E.
  { destruct Hr as [Hr|He]; [by apply refill_meets_spec|].
    unfold wrappingDifference in He. unfold refill, refill_spec, wrappingDifference.
    destruct (Z.leb_spec (time56.Since (time56.Unix now) (stamp b)) 0);
      [reflexivity|lia]. }
  repeat split.
  - exact E.
  - intros H. rewrite E. f_equal. by apply refill_spec_unchanged_level.
  - apply refill_spec_changed_stamp.
  - intros H. rewrite E. f_equal. by apply refill_spec_saturated.
Qed.

(** One and a half tokens' worth of time past two tokens, under capacity 5. *)
Lemma refill_follows_spec_witness :
  refill (newTokenBucket 2 0) 2500 1000 5 = Ret (newTokenBucket 4 2000).
Proof.
  destruct (refill_follows_spec (newTokenBucket 2 0) 2500 1000 5) as [E _].
  - unfold is_uint8; simpl; lia.
  - unfold is_uint8; lia.
  - simpl; lia.
  - left; lia.
  - rewrite E. reflexivity.
Defined.

(** C1 fails on the code at the rate zero: once time has passed since the
    stamp, [refill] does not return the bucket, unchanged or refilled, as the
    algorithm of the specification does for every rate; it stops in the
    division [elapsed / rate].  So it does on a bucket of one token stamped
    at 100 and read at 101, within capacity 5. *)
Theorem refill_zero_rate_panics :
  (forall b now capacity,
      refill b now 0 capacity
      = if wrappingDifference (time56.Unix now) (stamp b) <=? 0 then Ret b
        else Panic "runtime error: integer divide by zero")
  /\ wrappingDifference (time56.Unix 101) (stamp (newTokenBucket 1 100)) = 1
  /\ refill (newTokenBucket 1 100) 101 0 5
     = Panic "runtime error: integer divide by zero".
Proof.
  split; [|split; reflexivity].
  intros b now capacity. unfold refill, wrappingDifference.
  by destruct (_ <=? 0).
Qed.

(** Above the capacity, where the limiter never calls it, [refill] leaves the
    algorithm of the specification: the room [maxLevel - level] wraps, and a
    bucket at level 10 refilled three tokens under capacity 5 goes to level
    13, where the minimum is 5. *)
Lemma refill_above_capacity :
  refill (newTokenBucket 10 0) 3 1 5 = Ret (newTokenBucket 13 3)
  /\ refill_spec (newTokenBucket 10 0) 3 1 5 = newTokenBucket 5 3
  /\ ~ refill_as_specified (newTokenBucket 10 0) 3 1 5.
Proof.
  split; [reflexivity|]. split; [reflexivity|].
  unfold refill_as_specified. vm_compute. discriminate.
Qed.

(** ** The packed word *)

Lemma unpack_fields w :
  level (unpack w) = w / 2 ^ 56 /\ stamp (unpack w) = w mod 2 ^ 56.
Proof.
  unfold unpack, time56.Unpack. simpl. split.
  - apply Z.shiftr_div_pow2. unfold time56.bits. lia.
  - change time56.mask with (Z.ones 56). apply Z.land_ones. lia.
Qed.

Lemma unpack_range w :
  is_uint64 w -> is_uint8 (level (unpack w)) /\ time56.is_time (stamp (unpack w)).
Proof.
  intros [H0 H1]. destruct (unpack_fields w) as [-> ->].
  unfold is_uint8, time56.is_time. rewrite modulus_eq. split.
  - split; [apply Z.div_pos; lia|].
    apply Z.div_lt_upper_bound; [lia|]. change (2 ^ 56 * 2 ^ 8) with (2 ^ 64). lia.
  - apply Z.mod_pos_bound. lia.
Qed.

Lemma unpack_packed b :
  0 <= level b -> time56.is_time (stamp b) -> unpack (packed b) = b.
Proof.
  intros HL [H0 H1]. rewrite modulus_eq in H1. destruct b as [v t]. simpl in *.
  unfold unpack, packed, time56.Unpack, time56.Pack. simpl.
  unfold time56.bits. f_equal.
  - rewrite Z.shiftr_lor, Z.shiftr_shiftl_l by lia.
    rewrite Z.sub_diag, Z.shiftl_0_r.
    rewrite (Z.shiftr_div_pow2 t) by lia.
    rewrite (Z.div_small t) by lia. apply Z.lor_0_r.
  - change time56.mask with (Z.ones 56).
    rewrite Z.land_lor_distr_l, !Z.land_ones by lia.
    rewrite Z.shiftl_mul_pow2 by lia.
    rewrite Z_mod_mult, Z.mod_small by lia. reflexivity.
Qed.

(** A packed bucket is the level times [2^56] plus the stamp. *)
Lemma packed_value b :
  0 <= level b -> time56.is_time (stamp b) ->
  packed b = level b * 2 ^ 56 + stamp b.
Proof.
  intros HL Ht.
  pose proof (unpack_packed b HL Ht) as E.
  destruct (unpack_fields (packed b)) as [E1 E2]. rewrite E in E1, E2.
  pose proof (Z.div_mod (packed b) (2 ^ 56) ltac:(lia)). lia.
Qed.

Lemma packed_range b :
  is_uint8 (level b) -> time56.is_time (stamp b) -> is_uint64 (packed b).
Proof.
  intros [H0 H1] Ht. rewrite packed_value by (auto; lia).
  destruct Ht as [T0 T1]. rewrite modulus_eq in T1.
  unfold is_uint64. change (2 ^ 64) with (2 ^ 8 * 2 ^ 56). nia.
Qed.

(** ** Refill and take keep a bucket within its capacity *)

Lemma refill_spec_level b now rate capacity :
  level_in_range capacity b ->
  level b <= level (refill_spec b now rate capacity) <= capacity.
Proof.
  unfold level_in_range, refill_spec. intros H.
  repeat case_match; simpl; lia.
Qed.

(** [refill] adds tokens, never removes any, and stays within the capacity. *)
Lemma refill_level b now rate capacity b' :
  is_uint8 capacity -> level_in_range capacity b ->
  refill b now rate capacity = Ret b' ->
  level b <= level b' <= capacity.
Proof.
  intros HC HL E.
  assert (is_uint8 (level b)) by (unfold is_uint8, level_in_range in *; lia).
  destruct (Z.eq_dec rate 0) as [->|Hr].
  - unfold refill in E. unfold level_in_range in HL.
    destruct (_ <=? 0); simpl in E; [|discriminate].
    inversion E; subst. lia.
  - rewrite refill_meets_spec in E by (auto; unfold level_in_range in HL; lia).
    inversion E; subst. by apply refill_spec_level.
Qed.

Lemma refill_stamp b now rate capacity b' :
  time56.is_time (stamp b) ->
  refill b now rate capacity = Ret b' ->
  time56.is_time (stamp b').
Proof.
  intros Ht. unfold refill.
  repeat case_match; intros E; inversion E; subst; simpl; auto.
  all: unfold time56.Sub, time56.is_time; apply Z.mod_pos_bound;
    rewrite modulus_eq; lia.
Qed.

(** [refill] returns for every rate but zero. *)
Lemma refill_returns b now rate capacity :
  rate <> 0 -> exists b', refill b now rate capacity = Ret b'.
Proof.
  intros Hr. unfold refill.
  destruct (Z.eqb_spec rate 0); [lia|].
  repeat case_match; eauto.
Qed.

Lemma take_level b :
  is_uint8 (level b) ->
  (0 < level b /\ take b = (newTokenBucket (level b - 1) (stamp b), true))
  \/ (level b = 0 /\ take b = (b, false)).
Proof.
  intros [H0 H1]. unfold take.
  destruct (Z.ltb_spec 0 (level b)).
  - left. split; [lia|]. rewrite uint8_id by (unfold is_uint8; lia). reflexivity.
  - right. split; [lia|reflexivity].
Qed.

Lemma take_in_range capacity b :
  is_uint8 capacity -> level_in_range capacity b ->
  level_in_range capacity (fst (take b)) /\ stamp (fst (take b)) = stamp b.
Proof.
  intros HC HL. unfold level_in_range, is_uint8 in *.
  destruct (take_level b) as [[Hp ->]|[Hz ->]]; simpl;
    unfold is_uint8; try lia.
Qed.

(** ** One attempt on a word *)

Lemma attempt_in_range w now rate cap w' taken :
  is_uint8 cap -> is_uint64 w -> level_in_range cap (unpack w) ->
  attempt w now rate cap = Ret (Some w', taken) ->
  is_uint64 w' /\ level_in_range cap (unpack w').
Proof.
  intros HC Hw HL. unfold attempt.
  destruct (refill _ _ _ _) as [r| |] eqn:E; try discriminate.
  destruct (take r) as [u tk] eqn:Et.
  destruct (negb _); intros H; inversion H; subst; clear H.
  destruct (unpack_range w Hw) as [Hl Hs].
  pose proof (refill_level _ _ _ _ _ HC HL E) as Rl.
  pose proof (refill_stamp _ _ _ _ _ Hs E) as Rs.
  assert (level_in_range cap r) as Hr by (unfold level_in_range in *; lia).
  destruct (take_in_range cap r HC Hr) as [Tl Ts]. rewrite Et in Tl, Ts. simpl in *.
  assert (is_uint8 (level u)) by (unfold level_in_range, is_uint8 in *; lia).
  assert (time56.is_time (stamp u)) by (rewrite Ts; done).
  split.
  - by apply packed_range.
  - rewrite unpack_packed; auto. unfold level_in_range in Tl; lia.
Qed.

Lemma attempt_returns w now rate cap :
  rate <> 0 -> exists r, attempt w now rate cap = Ret r.
Proof.
  intros Hr. unfold attempt.
  destruct (refill_returns (unpack w) now rate cap Hr) as [b' ->].
  destruct (take b'). destruct (negb _); eauto.
Qed.

(** ** The methods, called one at a time *)

Lemma checkInner_state i rate now t : snd (checkInner i rate now t) = t.
Proof.
  unfold checkInner, mbind, buckets_Get, reads, lift, mret.
  destruct (slice_Get _ _); simpl; try reflexivity.
  destruct (refill _ _ _ _); reflexivity.
Qed.

Lemma slice_Get_lookup (s : atomicSliceUint64) i w :
  0 <= i -> s !! Z.to_nat i = Some w -> slice_Get s i = Ret w.
Proof.
  intros Hi E. unfold slice_Get.
  destruct (Z.ltb_spec i 0); [lia|]. by rewrite E.
Qed.

Lemma checkInner_lookup i rate now t w :
  0 <= i -> buckets t !! Z.to_nat i = Some w ->
  checkInner i rate now t
  = match refill (unpack w) now rate (burstCapacity t) with
    | Ret refilled => (Ret (0 <? level refilled), t)
    | Panic m => (Panic m, t)
    | Spin => (Spin, t)
    end.
Proof.
  intros Hi E.
  unfold checkInner, mbind, buckets_Get, reads, lift, mret.
  rewrite (slice_Get_lookup _ _ _ Hi E).
  destruct (refill _ _ _ _); reflexivity.
Qed.

(** With no other writer between the load and the compare-and-swap, the loop
    of [takeTokenInner] ends in its first iteration. *)
Lemma takeTokenInner_lookup fuel i rate now t w :
  0 <= i -> buckets t !! Z.to_nat i = Some w ->
  takeTokenInner (S fuel) i rate now t
  = match attempt w now rate (burstCapacity t) with
    | Ret (Some w', taken) =>
        (Ret taken, with_buckets t (<[Z.to_nat i := w']> (buckets t)))
    | Ret (None, taken) => (Ret taken, t)
    | Panic m => (Panic m, t)
    | Spin => (Spin, t)
    end.
Proof.
  intros Hi E.
  unfold takeTokenInner, attempt. simpl.
  unfold mbind, buckets_Get, reads, lift, mret.
  rewrite (slice_Get_lookup _ _ _ Hi E).
  destruct (refill _ _ _ _) as [r| |]; try reflexivity.
  destruct (take r) as [u tk].
  destruct (negb (tokenBucket_eqb _ _)); [|reflexivity].
  unfold buckets_CompareAndSwap, slice_CompareAndSwap.
  destruct (Z.ltb_spec i 0); [lia|].
  rewrite E, Z.eqb_refl. reflexivity.
Qed.

(** ** Bucket indexing *)

Lemma fold_fnv_step id h : fold_left fnv_step id h = FNV1a64_from h id.
Proof.
  revert h. induction id as [|b id IH]; intros h; simpl; [reflexivity|].
  rewrite IH. reflexivity.
Qed.

Lemma land_pow2_mask h k : 0 <= k -> Z.land h (2 ^ k - 1) = h mod 2 ^ k.
Proof.
  intros Hk. rewrite <- Z.land_ones by lia.
  rewrite Z.ones_equiv. f_equal.
Qed.

Lemma index_masked t id :
  limiter_ok t ->
  index t id = Z.land (FNV1a64 id) (numBuckets t - 1)
  /\ 0 <= index t id < numBuckets t.
Proof.
  intros [_ _ _ _ Hm (k & Hk & Hn)].
  unfold index, FNV1a64. rewrite fold_fnv_step, Hm. fold fnv_offset.
  set (h := FNV1a64_from fnv_offset id).
  rewrite Hn, land_pow2_mask by lia.
  pose proof (Z.mod_pos_bound h (2 ^ k) ltac:(lia)) as B.
  assert (2 ^ k <= 2 ^ 62) by (apply Z.pow_le_mono_r; lia).
  rewrite int64_id by (unfold is_int64; lia).
  auto.
Qed.

Lemma index_lookup t id :
  limiter_ok t ->
  0 <= index t id /\ exists w, buckets t !! Z.to_nat (index t id) = Some w.
Proof.
  intros Hok. destruct (index_masked t id Hok) as [_ [H0 H1]].
  split; [exact H0|].
  apply lookup_lt_is_Some_2.
  destruct Hok as [_ _ _ Hlen _ _]. lia.
Qed.

(** ** The invariant is kept *)

Lemma limiter_ok_store t i w :
  limiter_ok t -> is_uint64 w ->
  level_in_range (burstCapacity t) (unpack w) ->
  limiter_ok (with_buckets t (<[i := w]> (buckets t))).
Proof.
  intros [Hc Hw Hl Hlen Hm Hp] Hw' Hl'.
  split; simpl; auto.
  - by apply Forall_insert.
  - unfold buckets_in_range. simpl. by apply Forall_insert.
  - by rewrite length_insert.
Qed.

Lemma limiter_ok_word t i w :
  limiter_ok t -> buckets t !! i = Some w ->
  is_uint64 w /\ level_in_range (burstCapacity t) (unpack w).
Proof.
  intros [_ Hw Hl _ _ _] E. split.
  - eapply Forall_lookup_1 in Hw; eauto.
  - eapply Forall_lookup_1 in Hl; eauto.
Qed.

(** [TakeToken], given at least one iteration, is one attempt on the
    identifier's bucket. *)
Lemma TakeToken_attempt fuel id now t :
  limiter_ok t ->
  exists w, buckets t !! Z.to_nat (index t id) = Some w /\
    TakeToken (S fuel) id now t
    = match attempt w now (refillIntervalNanos t) (burstCapacity t) with
      | Ret (Some w', taken) =>
          (Ret taken,
           with_buckets t (<[Z.to_nat (index t id) := w']> (buckets t)))
      | Ret (None, taken) => (Ret taken, t)
      | Panic m => (Panic m, t)
      | Spin => (Spin, t)
      end.
Proof.
  intros Hok. destruct (index_lookup t id Hok) as (H0 & w & E).
  exists w. split; [exact E|].
  unfold TakeToken. by apply takeTokenInner_lookup.
Qed.

Lemma Check_state id now t : snd (Check id now t) = t.
Proof. unfold Check. apply checkInner_state. Qed.

Lemma TakeToken_ok fuel id now t :
  limiter_ok t -> limiter_ok (snd (TakeToken fuel id now t)).
Proof.
  intros Hok. destruct fuel as [|fuel]; [exact Hok|].
  destruct (TakeToken_attempt fuel id now t Hok) as (w & E & ->).
  destruct (limiter_ok_word t _ w Hok E) as [Hw Hl].
  destruct (attempt _ _ _ _) as [[[w'|] tk]| |] eqn:Ea; simpl; auto.
  destruct (attempt_in_range _ _ _ _ _ _ (ok_capacity _ Hok) Hw Hl Ea).
  by apply limiter_ok_store.
Qed.

Lemma do_call_ok fuel c t :
  limiter_ok t -> limiter_ok (snd (do_call fuel c t)).
Proof.
  intros Hok. destruct c; simpl.
  - by rewrite Check_state.
  - by apply TakeToken_ok.
Qed.

Lemma run_ok fuel cs t :
  limiter_ok t -> limiter_ok (snd (run fuel cs t)).
Proof.
  revert t. induction cs as [|c cs IH]; intros t Hok; simpl; [exact Hok|].
  pose proof (do_call_ok fuel c t Hok) as H.
  destruct (do_call fuel c t) as [[b| |] t']; simpl in *; auto.
  specialize (IH t' H).
  destruct (run fuel cs t') as [[bs o] t'']. exact IH.
Qed.

Lemma takeTokenInner_loop_config fuel i rate now t :
  same_config t (snd (takeTokenInner_loop fuel i rate now t)).
Proof.
  revert t. induction fuel as [|fuel IH]; intros t; simpl; [done|].
  unfold mbind, buckets_Get, reads, lift, mret.
  destruct (slice_Get _ _); simpl; try done.
  destruct (refill _ _ _ _); simpl; try done.
  destruct (take _) as [u tk].
  destruct (negb (tokenBucket_eqb _ _)); simpl; try done.
  unfold buckets_CompareAndSwap.
  destruct (slice_CompareAndSwap _ _ _ _) as [[[|] s']| |]; simpl; try done.
  apply (IH (with_buckets t s')).
Qed.

Lemma TakeToken_config fuel id now t :
  same_config t (snd (TakeToken fuel id now t)).
Proof. apply takeTokenInner_loop_config. Qed.

Lemma run_config fuel cs t : same_config t (snd (run fuel cs t)).
Proof.
  revert t. induction cs as [|c cs IH]; intros t; simpl; [done|].
  assert (same_config t (snd (do_call fuel c t))) as H.
  { destruct c; simpl.
    - by rewrite Check_state.
    - apply TakeToken_config. }
  destruct (do_call fuel c t) as [[b| |] t']; simpl in *; auto.
  specialize (IH t').
  destruct (run fuel cs t') as [[bs o] t'']. simpl in *.
  unfold same_config in *. destruct H as (<- & <- & <- & <-). exact IH.
Qed.

(** ** Construction *)

(** [n & (n - 1) == 0] singles out the powers of two among the positive
    numbers. *)
Lemma land_pred_pow2 n : 0 < n -> (Z.land n (n - 1) = 0 <-> is_pow2 n).
Proof.
  intros Hn. split.
  - intros Hl.
    destruct (Z.log2_spec n Hn) as [Lo Hi].
    pose proof (Z.log2_nonneg n) as Hk.
    exists (Z.log2 n). split; [exact Hk|].
    destruct (Z.eq_dec n (2 ^ Z.log2 n)) as [|Hne]; [assumption|exfalso].
    assert (Z.log2 (n - 1) = Z.log2 n) as Hlog.
    { apply Z.log2_unique; [exact Hk|]. lia. }
    assert (Z.testbit (Z.land n (n - 1)) (Z.log2 n) = true) as Hb.
    { rewrite Z.land_spec, (Z.bit_log2 n Hn).
      rewrite <- Hlog, Z.bit_log2 by lia. reflexivity. }
    rewrite Hl, Z.bits_0 in Hb. discriminate.
  - intros (k & Hk & ->).
    rewrite land_pow2_mask by exact Hk.
    apply Z.mod_same. lia.
Qed.

Lemma powerOfTwo_spec n : is_uint64 n -> (powerOfTwo n = true <-> is_pow2 n).
Proof.
  intros [H0 H1]. unfold powerOfTwo.
  destruct (Z.eqb_spec n 0) as [->|Hne]; simpl.
  - split; [discriminate|]. intros (k & Hk & E).
    pose proof (Z.pow_pos_nonneg 2 k ltac:(lia) Hk). lia.
  - rewrite uint64_id by (unfold is_uint64; lia).
    rewrite Z.eqb_eq. apply land_pred_pow2. lia.
Qed.

Lemma fill_buckets_replicate (k i : nat) (word : Z) :
  Z.of_nat i + Z.of_nat k < 2 ^ 63 ->
  fill_buckets k (Z.of_nat i) word (replicate i word ++ replicate k 0)
  = Ret (replicate (i + k) word).
Proof.
  revert i. induction k as [|k IH]; intros i Hb; simpl.
  - by rewrite app_nil_r, Nat.add_0_r.
  - rewrite int64_id by (unfold is_int64; lia).
    unfold slice_Set.
    destruct (Z.ltb_spec (Z.of_nat i) 0); [lia|].
    rewrite Nat2Z.id.
    rewrite lookup_app_r by (rewrite length_replicate; lia).
    rewrite length_replicate, Nat.sub_diag. simpl.
    replace (<[i:=word]> (replicate i word ++ 0 :: replicate k 0))
      with (replicate (S i) word ++ replicate k 0).
    + replace (Z.of_nat i + 1) with (Z.of_nat (S i)) by lia.
      rewrite IH by lia. f_equal. f_equal. lia.
    + rewrite replicate_S_end, <- app_assoc. simpl.
      rewrite insert_app_r_alt by (rewrite length_replicate; lia).
      rewrite length_replicate, Nat.sub_diag. reflexivity.
Qed.

(** What a successful construction returns. *)
Lemma NewTokenBucketLimiter_limiter n cap rate unit clock t e :
  is_uint64 n ->
  NewTokenBucketLimiter n cap rate unit clock = Ret (Some t, e) ->
  e = None /\ is_pow2 n /\ n < 2 ^ 63 /\
  t = {| buckets := replicate (Z.to_nat n) (packed (newTokenBucket cap (time56.Unix clock)));
         bucketMask := n - 1;
         burstCapacity := cap;
         refillIntervalNanos := nanoRate unit rate;
         numBuckets := n;
         refillRate := rate;
         refillRateUnit := unit |}.
Proof.
  intros Hn. unfold NewTokenBucketLimiter.
  fold (powerOfTwo n).
  destruct (powerOfTwo n) eqn:Hp; simpl; [|discriminate].
  apply powerOfTwo_spec in Hp; [|exact Hn].
  assert (0 < n) as Hpos.
  { destruct Hp as (k & Hk & ->). apply Z.pow_pos_nonneg; lia. }
  unfold newAtomicSliceUint64.
  destruct ((int64 n <? 0) || (max_slice_len <? int64 n)) eqn:Hb;
    [discriminate|].
  apply orb_false_iff in Hb as [Hge _]. apply Z.ltb_ge in Hge.
  assert (n < 2 ^ 63) as Hlt.
  { destruct (Z.lt_ge_cases n (2 ^ 63)) as [|Hbig]; [assumption|].
    exfalso. unfold int64, is_uint64 in *.
    replace (n + 2 ^ 63) with (n - 2 ^ 63 + 1 * 2 ^ 64) in Hge by lia.
    rewrite Z_mod_plus_full, Z.mod_small in Hge by lia. lia. }
  rewrite int64_id by (unfold is_int64; lia).
  set (word := packed (newTokenBucket cap (time56.Unix clock))).
  assert (fill_buckets (Z.to_nat n) 0 word (replicate (Z.to_nat n) 0)
          = Ret (replicate (Z.to_nat n) word)) as F.
  { apply (fill_buckets_replicate (Z.to_nat n) 0 word). lia. }
  rewrite F.
  rewrite uint64_id by (unfold is_uint64 in *; lia).
  intros E. inversion E; subst. auto.
Qed.

Lemma NewTokenBucketLimiter_ok n cap rate unit clock t e :
  is_uint64 n -> is_uint8 cap ->
  NewTokenBucketLimiter n cap rate unit clock = Ret (Some t, e) ->
  limiter_ok t.
Proof.
  intros Hn Hc E.
  destruct (NewTokenBucketLimiter_limiter _ _ _ _ _ _ _ Hn E)
    as (_ & (k & Hk & Hnk) & Hlt & ->).
  pose proof (Unix_is_time clock) as Ht.
  split; simpl.
  - exact Hc.
  - apply Forall_replicate. by apply packed_range.
  - unfold buckets_in_range. simpl. apply Forall_replicate.
    rewrite unpack_packed by (auto; simpl; unfold is_uint8 in Hc; lia).
    unfold level_in_range, is_uint8 in *. simpl. lia.
  - rewrite length_replicate. unfold is_uint64 in Hn. lia.
  - reflexivity.
  - exists k. split; [|exact Hnk]. split; [lia|].
    destruct (Z.lt_ge_cases k 63) as [|Hge]; [assumption|].
    assert (2 ^ 63 <= 2 ^ k) by (apply Z.pow_le_mono_r; lia). lia.
Qed.

Lemma NewTokenBucketLimiter_accepts n cap rate unit clock :
  is_pow2 n -> n <= max_slice_len ->
  exists t, NewTokenBucketLimiter n cap rate unit clock = Ret (Some t, None).
Proof.
  intros Hp Hlt. unfold max_slice_len in Hlt.
  assert (0 < n) as Hpos.
  { destruct Hp as (k & Hk & ->). apply Z.pow_pos_nonneg; lia. }
  assert (is_uint64 n) as Hn by (unfold is_uint64; lia).
  unfold NewTokenBucketLimiter. fold (powerOfTwo n).
  apply powerOfTwo_spec in Hp; [|exact Hn]. rewrite Hp. simpl.
  unfold newAtomicSliceUint64, max_slice_len.
  rewrite int64_id by (unfold is_int64; lia).
  destruct (Z.ltb_spec n 0); [lia|].
  destruct (Z.ltb_spec (2 ^ 45) n); [lia|]. cbn [orb].
  set (word := packed (newTokenBucket cap (time56.Unix clock))).
  assert (fill_buckets (Z.to_nat n) 0 word (replicate (Z.to_nat n) 0)
          = Ret (replicate (Z.to_nat n) word)) as F.
  { apply (fill_buckets_replicate (Z.to_nat n) 0 word). lia. }
  rewrite F. eauto.
Qed.

Lemma NewTokenBucketLimiter_rejects n cap rate unit clock :
  is_uint64 n ->
  (exists e, NewTokenBucketLimiter n cap rate unit clock = Ret (None, Some e))
  <-> ~ is_pow2 n.
Proof.
  intros Hn. pose proof (powerOfTwo_spec n Hn) as Hs.
  unfold NewTokenBucketLimiter. fold (powerOfTwo n).
  destruct (powerOfTwo n); simpl.
  - split.
    + intros [e E]. exfalso.
      destruct (newAtomicSliceUint64 _); try discriminate.
      destruct (fill_buckets _ _ _ _); discriminate.
    + intros H. exfalso. apply H, Hs. reflexivity.
  - split; [|eauto].
    intros _ Hp. apply Hs in Hp. discriminate.
Qed.

Lemma NewTokenBucketLimiter_error_no_limiter n cap rate unit clock lim e :
  NewTokenBucketLimiter n cap rate unit clock = Ret (lim, Some e) -> lim = None.
Proof.
  unfold NewTokenBucketLimiter.
  destruct (negb _).
  - intros E. inversion E. reflexivity.
  - destruct (newAtomicSliceUint64 _); try discriminate.
    destruct (fill_buckets _ _ _ _); discriminate.
Qed.

Lemma not_pow2_between k n : 0 <= k -> 2 ^ k < n < 2 ^ (k + 1) -> ~ is_pow2 n.
Proof.
  intros Hk [Lo Hi] (j & Hj & ->).
  destruct (Z.lt_ge_cases k j).
  - assert (2 ^ (k + 1) <= 2 ^ j) by (apply Z.pow_le_mono_r; lia). lia.
  - assert (2 ^ j <= 2 ^ k) by (apply Z.pow_le_mono_r; lia). lia.
Qed.

(** C6: the constructor returns an error exactly when [numBuckets] is zero or
    not a power of two, and then returns no limiter; it rejects 3, 5 and 6
    and accepts 1, 2, 4 and 64. *)
Theorem construction_validation n cap rate unit clock :
  is_uint64 n ->
  ((exists e, NewTokenBucketLimiter n cap rate unit clock = Ret (None, Some e))
   <-> (n = 0 \/ ~ is_pow2 n))
  /\ (forall lim e,
        NewTokenBucketLimiter n cap rate unit clock = Ret (lim, Some e) ->
        lim = None)
  /\ Forall (fun m => exists e,
        NewTokenBucketLimiter m cap rate unit clock = Ret (None, Some e))
       [3; 5; 6]
  /\ Forall (fun m => exists t,
        NewTokenBucketLimiter m cap rate unit clock = Ret (Some t, None))
       [1; 2; 4; 64].
Proof.
  intros Hn. split; [|split; [|split]].
  - rewrite NewTokenBucketLimiter_rejects by exact Hn. split; [auto|].
    intros [-> | H]; [|exact H].
    intros (k & Hk & E). pose proof (Z.pow_pos_nonneg 2 k ltac:(lia) Hk). lia.
  - intros lim e. apply NewTokenBucketLimiter_error_no_limiter.
  - repeat constructor;
      apply NewTokenBucketLimiter_rejects; try (unfold is_uint64; lia).
    + apply (not_pow2_between 1); lia.
    + apply (not_pow2_between 2); lia.
    + apply (not_pow2_between 2); lia.
  - repeat constructor; apply NewTokenBucketLimiter_accepts;
      try (unfold max_slice_len; lia).
    + exists 0; lia.
    + exists 1; lia.
    + exists 2; lia.
    + exists 6; lia.
Qed.

(** Six buckets are refused. *)
Lemma construction_validation_witness :
  exists e, NewTokenBucketLimiter 6 5 1%float 1000000000 0 = Ret (None, Some e).
Proof.
  destruct (construction_validation 6 5 1%float 1000000000 0) as [[_ H] _].
  - unfold is_uint64; lia.
  - apply H. right. apply (not_pow2_between 2); lia.
Defined.

(** C2: a bucket within [0, burstCapacity] stays there under [refill] with
    [maxLevel = burstCapacity] and under [take]; hence after any sequence of
    [Check] and [TakeToken] calls on a constructed limiter every bucket of
    the array decodes to a level within [0, burstCapacity]. *)
Theorem capacity_invariant cap :
  is_uint8 cap ->
  (forall b now rate b',
      level_in_range cap b -> refill b now rate cap = Ret b' ->
      level_in_range cap b')
  /\ (forall b, level_in_range cap b -> level_in_range cap (fst (take b)))
  /\ (forall n rate unit clock t fuel cs,
        is_uint64 n ->
        NewTokenBucketLimiter n cap rate unit clock = Ret (Some t, None) ->
        Forall (fun w => level_in_range cap (unpack w))
          (buckets (snd (run fuel cs t)))).
Proof.
  intros Hc. split; [|split].
  - intros b now rate b' Hb E.
    pose proof (refill_level b now rate cap b' Hc Hb E).
    unfold level_in_range in *. lia.
  - intros b Hb. by apply take_in_range.
  - intros n rate unit clock t fuel cs Hn E.
    pose proof (NewTokenBucketLimiter_ok _ _ _ _ _ _ _ Hn Hc E) as Hok.
    destruct (NewTokenBucketLimiter_limiter _ _ _ _ _ _ _ Hn E) as (_ & _ & _ & Ht).
    assert (burstCapacity t = cap) as Hcap by (rewrite Ht; reflexivity).
    pose proof (run_ok fuel cs t Hok) as [_ _ Hl _ _ _].
    destruct (run_config fuel cs t) as (_ & Hc' & _).
    unfold buckets_in_range in Hl. rewrite Hc', Hcap in Hl. exact Hl.
Qed.

(** Taking from a full bucket of capacity 5. *)
Lemma capacity_invariant_witness :
  level_in_range 5 (fst (take (newTokenBucket 5 0))).
Proof.
  destruct (capacity_invariant 5) as (_ & H & _).
  - unfold is_uint8; lia.
  - apply H. unfold level_in_range; simpl; lia.
Defined.

(** ** Check is read-only *)

Lemma run_checks_state fuel cs t :
  Forall is_check cs -> snd (run fuel cs t) = t.
Proof.
  induction 1 as [|c cs Hc _ IH]; simpl; [reflexivity|].
  destruct c as [id now|]; [|destruct Hc]. simpl.
  pose proof (Check_state id now t) as E.
  destruct (Check id now t) as [[b| |] t']; simpl in *; subst; auto.
  destruct (run fuel cs t) as [[bs o] t'']. exact IH.
Qed.

(** C8: [Check] never writes to the bucket array: whatever it answers, and
    also when it does not return, the limiter after the call is the limiter
    before it, word for word; so is the limiter after any number of [Check]
    calls. *)
Theorem Check_no_side_effect t :
  (forall id now, snd (Check id now t) = t)
  /\ (forall id now, buckets (snd (Check id now t)) = buckets t)
  /\ (forall fuel cs, Forall is_check cs -> snd (run fuel cs t) = t).
Proof.
  split; [|split].
  - intros. apply Check_state.
  - intros. by rewrite Check_state.
  - intros. by apply run_checks_state.
Qed.

(** ** Bucket indexing, as specified *)

(** The published FNV-1a test vectors for the empty string, "a" and
    "foobar". *)
Example FNV1a64_vectors :
  FNV1a64 [] = 0xcbf29ce484222325
  /\ FNV1a64 (list_byte_of_string "a") = 0xaf63dc4c8601ec8c
  /\ FNV1a64 (list_byte_of_string "foobar") = 0x85944171f73967e8.
Proof. vm_compute. auto. Qed.

(** C9: the bucket index of an identifier is its 64-bit FNV-1a hash masked by
    [numBuckets - 1]; it lies in [0, numBuckets); and it is the same after
    any sequence of calls on the limiter. *)
Theorem index_is_masked_hash t id :
  limiter_ok t ->
  index t id = Z.land (FNV1a64 id) (numBuckets t - 1)
  /\ 0 <= index t id < numBuckets t
  /\ (forall fuel cs, index (snd (run fuel cs t)) id = index t id).
Proof.
  intros Hok. destruct (index_masked t id Hok) as [E R].
  split; [exact E|]. split; [exact R|].
  intros fuel cs. destruct (run_config fuel cs t) as (Hm & _).
  unfold index. by rewrite Hm.
Qed.

(** ** Totality *)

(** With a rate other than zero both methods return, and [TakeToken] needs
    one iteration of its loop. *)
Lemma calls_return t id now fuel :
  limiter_ok t -> refillIntervalNanos t <> 0 ->
  (exists b, Check id now t = (Ret b, t))
  /\ (exists b t', TakeToken (S fuel) id now t = (Ret b, t')).
Proof.
  intros Hok Hr.
  destruct (index_lookup t id Hok) as (H0 & w & E). split.
  - unfold Check. rewrite (checkInner_lookup _ _ _ _ w H0 E).
    destruct (refill_returns (unpack w) now (refillIntervalNanos t)
                (burstCapacity t) Hr) as [b' ->]. eauto.
  - destruct (TakeToken_attempt fuel id now t Hok) as (w' & E' & ->).
    destruct (attempt_returns w' now (refillIntervalNanos t)
                (burstCapacity t) Hr) as [[[w''|] tk] ->]; eauto.
Qed.

(** The loop of [TakeToken] never needs a second iteration when no other
    caller interferes. *)
Lemma TakeToken_fuel fuel id now t :
  limiter_ok t -> TakeToken (S fuel) id now t = TakeToken 1 id now t.
Proof.
  intros Hok.
  destruct (TakeToken_attempt fuel id now t Hok) as (w & E & ->).
  destruct (TakeToken_attempt 0 id now t Hok) as (w' & E' & ->).
  rewrite E in E'. inversion E'. reflexivity.
Qed.

Lemma run_fuel fuel cs t :
  limiter_ok t -> run (S fuel) cs t = run 1 cs t.
Proof.
  revert t. induction cs as [|c cs IH]; intros t Hok; simpl; [reflexivity|].
  assert (do_call (S fuel) c t = do_call 1 c t) as ->.
  { destruct c; simpl; [reflexivity|]. by apply TakeToken_fuel. }
  pose proof (do_call_ok 1 c t Hok) as Hok'.
  destruct (do_call 1 c t) as [[b| |] t']; simpl in *; auto.
  by rewrite IH.
Qed.

(** C3 fails on the code: constructed with a refill rate of zero, the limiter
    has [refillIntervalNanos = 0], and one nanosecond later both [Check] and
    [TakeToken] stop in the division of [refill] instead of answering. *)
Theorem zero_rate_divides_by_zero :
  NewTokenBucketLimiter 1 5 0%float 1000000000 0
  = Ret (Some zero_rate_limiter, None)
  /\ Check (list_byte_of_string "x") 1 zero_rate_limiter
     = (Panic "runtime error: integer divide by zero", zero_rate_limiter)
  /\ (forall fuel,
        TakeToken (S fuel) (list_byte_of_string "x") 1 zero_rate_limiter
        = (Panic "runtime error: integer divide by zero", zero_rate_limiter)).
Proof.
  assert (NewTokenBucketLimiter 1 5 0%float 1000000000 0
          = Ret (Some zero_rate_limiter, None)) as E by (vm_compute; reflexivity).
  split; [exact E|]. split; [vm_compute; reflexivity|].
  intros fuel. rewrite TakeToken_fuel.
  - vm_compute. reflexivity.
  - eapply NewTokenBucketLimiter_ok; [| |exact E]; unfold is_uint64, is_uint8; lia.
Qed.

(** ** The concrete scenario *)

(** C7: a limiter constructed at time 0 with one bucket, capacity 5 and one
    token per second answers true to five [TakeToken("x")] calls at time 0
    and false to the sixth; one second later it answers true, then false. *)
Theorem concrete_scenario :
  exists t,
    NewTokenBucketLimiter 1 5 1%float second 0 = Ret (Some t, None)
    /\ refillIntervalNanos t = second
    /\ forall fuel,
         fst (run (S fuel) scenario_calls t)
         = ([true; true; true; true; true; false; true; false], Ret tt).
Proof.
  destruct (NewTokenBucketLimiter 1 5 1%float second 0) as [[[t|] e]| |] eqn:E;
    try (vm_compute in E; discriminate).
  assert (e = None) as -> by (vm_compute in E; congruence).
  exists t. split; [reflexivity|].
  assert (limiter_ok t) as Hok.
  { eapply NewTokenBucketLimiter_ok; [| |exact E]; unfold is_uint64, is_uint8; lia. }
  vm_compute in E. inversion E; subst. split; [reflexivity|].
  intros fuel. rewrite run_fuel by exact Hok.
  vm_compute. reflexivity.
Qed.

(** The four-bucket limiter satisfies the invariant. *)
Lemma four_buckets_ok : limiter_ok four_buckets.
Proof.
  split; simpl.
  - unfold is_uint8; lia.
  - repeat constructor; vm_compute; congruence.
  - repeat constructor; vm_compute; congruence.
  - reflexivity.
  - reflexivity.
  - exists 2. lia.
Defined.

(** The identifier "x" among four buckets. *)
Lemma index_is_masked_hash_witness :
  index four_buckets (list_byte_of_string "x") = 3.
Proof.
  destruct (index_is_masked_hash four_buckets (list_byte_of_string "x")
              four_buckets_ok) as [E _].
  rewrite E. vm_compute. reflexivity.
Defined.

(** ** Negative rates *)

Lemma refill_negative_rate b now rate cap :
  rate < 0 -> refill b now rate cap = Ret b.
Proof.
  intros Hr. unfold refill.
  set (e := time56.Since (time56.Unix now) (stamp b)).
  pose proof (Since_range (time56.Unix now) (stamp b)) as Re. fold e in Re.
  destruct (Z.leb_spec e 0) as [|He]; [reflexivity|].
  destruct (Z.eqb_spec rate 0); [lia|].
  pose proof (quot_bound e rate He ltac:(lia)).
  destruct (quot_neg_rate e rate He Hr) as [Hq _].
  rewrite int64_id by (unfold is_int64; lia).
  destruct (Z.leb_spec (Z.quot e rate) 0); [reflexivity|lia].
Qed.

Lemma tokenBucket_eqb_level a b :
  level a <> level b -> tokenBucket_eqb a b = false.
Proof.
  intros H. unfold tokenBucket_eqb.
  destruct (Z.eqb_spec (level a) (level b)); [contradiction|reflexivity].
Qed.

Lemma tokenBucket_eqb_refl a : tokenBucket_eqb a a = true.
Proof. unfold tokenBucket_eqb. by rewrite !Z.eqb_refl. Qed.

(** Without refill an attempt takes a token if there is one. *)
Lemma attempt_no_refill w now rate cap :
  is_uint64 w -> refill (unpack w) now rate cap = Ret (unpack w) ->
  (0 < level (unpack w) /\
   attempt w now rate cap
   = Ret (Some (packed (newTokenBucket (level (unpack w) - 1) (stamp (unpack w)))), true))
  \/ (level (unpack w) = 0 /\ attempt w now rate cap = Ret (None, false)).
Proof.
  intros Hw E. unfold attempt. rewrite E.
  destruct (unpack_range w Hw) as [Hl _].
  destruct (take_level (unpack w) Hl) as [[Hp ->]|[Hz ->]].
  - left. split; [exact Hp|].
    rewrite tokenBucket_eqb_level by (simpl; lia). reflexivity.
  - right. split; [exact Hz|]. by rewrite tokenBucket_eqb_refl.
Qed.

Lemma index_same_mask t t' id :
  bucketMask t' = bucketMask t -> index t' id = index t id.
Proof. unfold index. by intros ->. Qed.

Lemma successes_same_mask t t' i cs bs :
  bucketMask t' = bucketMask t -> successes t' i cs bs = successes t i cs bs.
Proof.
  intros Hm. revert bs. induction cs as [|c cs IH]; intros bs; [reflexivity|].
  destruct c, bs as [|[|] bs]; simpl; auto.
  by rewrite IH, (index_same_mask t t').
Qed.

Lemma bucket_level_store t j w i :
  (j < length (buckets t))%nat -> 0 <= i ->
  bucket_level (with_buckets t (<[j := w]> (buckets t))) i
  = if decide (j = Z.to_nat i) then level (unpack w) else bucket_level t i.
Proof.
  intros Hj Hi. unfold bucket_level. simpl.
  destruct (decide (j = Z.to_nat i)) as [->|Hne].
  - by rewrite list_lookup_insert_eq.
  - by rewrite list_lookup_insert_ne.
Qed.

Lemma refill_idle b now rate cap :
  idle rate now (stamp b) -> refill b now rate cap = Ret b.
Proof.
  intros [Hr|He]; [by apply refill_negative_rate|].
  unfold refill. destruct (Z.leb_spec (time56.Since (time56.Unix now) (stamp b)) 0);
    [reflexivity|lia].
Qed.

Lemma refill_calm b now rate cap :
  calm rate now (stamp b) -> refill b now rate cap = Ret b.
Proof.
  intros [Hr|[He|He]].
  - by apply refill_negative_rate.
  - apply refill_idle. by right.
  - unfold refill.
    destruct (Z.leb_spec (time56.Since (time56.Unix now) (stamp b)) 0);
      [reflexivity|].
    destruct (Z.eqb_spec rate 0); [lia|].
    rewrite Z.quot_small by lia. reflexivity.
Qed.

Lemma quiet_word t now i w :
  quiet t now -> buckets t !! i = Some w ->
  idle (refillIntervalNanos t) now (stamp (unpack w)).
Proof.
  intros Hq E. unfold quiet, stamps in Hq.
  eapply Forall_lookup_1 in Hq; [exact Hq|].
  by rewrite list_lookup_fmap, E.
Qed.

Lemma quiet_same t t' now :
  stamps t' = stamps t -> refillIntervalNanos t' = refillIntervalNanos t ->
  quiet t now -> quiet t' now.
Proof. unfold quiet. by intros -> ->. Qed.

(** One [TakeToken] call that finds nothing to refill: it takes one token
    from the identifier's bucket and touches no other, or finds the bucket
    empty and changes nothing; no stamp moves. *)
Lemma TakeToken_no_refill fuel id now t :
  limiter_ok t -> quiet t now ->
  (0 < bucket_level t (index t id) /\
   exists t', TakeToken (S fuel) id now t = (Ret true, t')
     /\ limiter_ok t' /\ same_config t t' /\ stamps t' = stamps t
     /\ forall i, 0 <= i ->
          bucket_level t' i
          = if index t id =? i then bucket_level t (index t id) - 1
            else bucket_level t i)
  \/ (bucket_level t (index t id) = 0
      /\ TakeToken (S fuel) id now t = (Ret false, t)).
Proof.
  intros Hok Hq.
  pose proof (TakeToken_ok (S fuel) id now t Hok) as Hok'.
  pose proof (TakeToken_config (S fuel) id now t) as Hcfg.
  destruct (TakeToken_attempt fuel id now t Hok) as (w & E & Et).
  destruct (index_lookup t id Hok) as (H0 & _).
  destruct (limiter_ok_word t _ w Hok E) as [Hw Hl].
  destruct (unpack_range w Hw) as [Hu8 Hts].
  pose proof (refill_idle _ _ _ (burstCapacity t) (quiet_word t now _ w Hq E)) as Hre.
  assert (bucket_level t (index t id) = level (unpack w)) as ->
    by (unfold bucket_level; by rewrite E).
  destruct (attempt_no_refill w now (refillIntervalNanos t) (burstCapacity t)
              Hw Hre) as [[Hp Ea]|[Hz Ea]]; rewrite Ea in Et.
  - left. split; [exact Hp|].
    rewrite Et in Hok', Hcfg. cbn [snd] in Hok', Hcfg.
    eexists. split; [exact Et|]. split; [exact Hok'|]. split; [exact Hcfg|].
    split.
    + unfold stamps. cbn [buckets with_buckets].
      rewrite list_fmap_insert.
      rewrite unpack_packed; [|cbn [level]; lia|exact Hts]. cbn [stamp].
      apply list_insert_id. by rewrite list_lookup_fmap, E.
    + intros i Hi.
      rewrite bucket_level_store by (eauto using lookup_lt_Some).
      rewrite unpack_packed; [|cbn [level]; lia|exact Hts]. cbn [level].
      destruct (Z.eqb_spec (index t id) i) as [->|Hne].
      * by rewrite decide_True.
      * rewrite decide_False by lia. reflexivity.
  - right. split; [exact Hz|exact Et].
Qed.

(** Tokens are conserved when nothing refills: what the calls took from
    bucket [i] and what is left in it add up to what was there. *)
Lemma run_no_refill fuel cs t i :
  limiter_ok t -> 0 <= i ->
  Forall (fun c => quiet t (call_now c)) cs ->
  successes t i cs (answers (run fuel cs t))
  + bucket_level (snd (run fuel cs t)) i
  = bucket_level t i.
Proof.
  intros Hok Hi. revert t Hok.
  induction cs as [|c cs IH]; intros t Hok Hq; [simpl; lia|].
  inversion Hq as [|? ? Hc Hcs]; subst.
  destruct c as [id now|id now].
  - simpl. pose proof (Check_state id now t) as Es.
    destruct (Check id now t) as [[b| |] t']; simpl in Es; subst t';
      try (simpl; lia).
    specialize (IH t Hok Hcs).
    destruct (run fuel cs t) as [[bs o] t'']. unfold answers in *. simpl in *.
    exact IH.
  - destruct fuel as [|fuel]; [simpl; lia|].
    simpl.
    destruct (TakeToken_no_refill fuel id now t Hok Hc)
      as [(Hp & t' & -> & Hok' & Hcfg & Hst & Hlev)|(Hz & ->)].
    + destruct Hcfg as (Hm & _ & Hr & _).
      assert (Forall (fun c => quiet t' (call_now c)) cs) as Hcs'.
      { eapply Forall_impl; [exact Hcs|]. intros c. by apply quiet_same. }
      specialize (IH t' Hok' Hcs').
      rewrite (successes_same_mask t t') in IH by exact Hm.
      rewrite (Hlev i Hi) in IH.
      destruct (run (S fuel) cs t') as [[bs o] t'']. unfold answers in *.
      simpl in *.
      destruct (Z.eqb_spec (index t id) i) as [->|Hne]; lia.
    + specialize (IH t Hok Hcs).
      destruct (run (S fuel) cs t) as [[bs o] t'']. unfold answers in *.
      simpl in *. exact IH.
Qed.

Lemma bucket_level_bounds t i :
  limiter_ok t -> 0 <= bucket_level t i <= burstCapacity t.
Proof.
  intros Hok. unfold bucket_level.
  destruct (buckets t !! Z.to_nat i) as [w|] eqn:E.
  - destruct (limiter_ok_word t _ w Hok E) as [_ Hl]. exact Hl.
  - destruct Hok as [[? ?] _ _ _ _ _]. lia.
Qed.

(** Conversions of the rate: a negative refill rate gives a negative
    interval, unless the product rounds to zero. *)
Example nanoRate_negative :
  nanoRate second (-1)%float = - second
  /\ nanoRate second (-0.5)%float = - 500000000
  /\ nanoRate 1 (-0.5)%float = 0.
Proof. vm_compute. auto. Qed.

(** C10 as stated fails on the conversion of the rate: a negative
    [refillRate] need not give a negative interval.  Minus one token per
    minus one second gives the interval of one second, and a bucket of
    capacity 1 then admits five calls in five seconds; minus half a token per
    nanosecond truncates to the interval zero. *)
Lemma negative_refillRate_may_refill :
  nanoRate (- second) (-1)%float = second
  /\ NewTokenBucketLimiter 1 1 (-1)%float (- second) 0
     = Ret (Some backwards_limiter, None)
  /\ burstCapacity backwards_limiter = 1
  /\ answers (run 1 [CallTakeToken id_x 0; CallTakeToken id_x second;
                     CallTakeToken id_x (2 * second);
                     CallTakeToken id_x (3 * second);
                     CallTakeToken id_x (4 * second)] backwards_limiter)
     = [true; true; true; true; true]
  /\ nanoRate 1 (-0.5)%float = 0.
Proof. repeat split; vm_compute; reflexivity. Qed.

(** C10, on the interval the limiter derives: with a negative interval
    [refill] returns every bucket unchanged, at
    every time and for every capacity; so on a limiter whose refill interval
    is negative, over any sequence of calls, the [TakeToken] calls that
    succeed on one bucket number at most [burstCapacity]. *)
Theorem negative_rate_never_refills rate :
  rate < 0 ->
  (forall b now cap, refill b now rate cap = Ret b)
  /\ (forall t fuel cs i,
        limiter_ok t -> refillIntervalNanos t = rate -> 0 <= i ->
        successes t i cs (answers (run fuel cs t)) <= burstCapacity t)
  /\ (forall n cap unit r clock t fuel cs i,
        is_uint64 n -> is_uint8 cap -> nanoRate unit r = rate ->
        NewTokenBucketLimiter n cap r unit clock = Ret (Some t, None) ->
        0 <= i ->
        successes t i cs (answers (run fuel cs t)) <= cap).
Proof.
  intros Hr.
  assert (forall t fuel cs i,
        limiter_ok t -> refillIntervalNanos t = rate -> 0 <= i ->
        successes t i cs (answers (run fuel cs t)) <= burstCapacity t) as H.
  { intros t fuel cs i Hok Ht Hi.
    assert (Forall (fun c => quiet t (call_now c)) cs) as Hq.
    { apply Forall_forall. intros c _. apply Forall_forall. intros s0 _.
      left. lia. }
    pose proof (run_no_refill fuel cs t i Hok Hi Hq) as E.
    pose proof (bucket_level_bounds t i Hok).
    pose proof (bucket_level_bounds _ i (run_ok fuel cs t Hok)).
    lia. }
  split; [|split].
  - intros. by apply refill_negative_rate.
  - exact H.
  - intros n cap unit r clock t fuel cs i Hn Hc Hrate E Hi.
    pose proof (NewTokenBucketLimiter_ok _ _ _ _ _ _ _ Hn Hc E) as Hok.
    destruct (NewTokenBucketLimiter_limiter _ _ _ _ _ _ _ Hn E) as (_ & _ & _ & Ht).
    assert (burstCapacity t = cap) as <- by (rewrite Ht; reflexivity).
    apply H; auto. rewrite Ht. exact Hrate.
Qed.

(** Ten seconds at minus one second per token: nothing. *)
Lemma negative_rate_never_refills_witness :
  refill (newTokenBucket 0 0) (10 * second) (- second) 5 = Ret (newTokenBucket 0 0).
Proof.
  destruct (negative_rate_never_refills (- second)) as [H _].
  - unfold second; lia.
  - apply H.
Defined.

(** ** Non-drift *)

(** One poll of a bucket that holds [k] whole tokens' worth of the time
    since [t0]. *)
Lemma refill_poll L k t0 rate cap now :
  is_uint8 cap -> 0 <= L -> 0 <= k -> 0 < rate ->
  rate * k <= now - t0 < 2 ^ 55 ->
  L + (now - t0) / rate <= cap ->
  refill {| level := L + k; stamp := time56.Unix (t0 + rate * k) |} now rate cap
  = Ret {| level := L + (now - t0) / rate;
           stamp := time56.Unix (t0 + rate * ((now - t0) / rate)) |}.
Proof.
  intros Hc HL Hk Hr [Lo Hi] Hcap.
  set (q := (now - t0) / rate) in *.
  assert (k <= q) as Hkq.
  { apply Z.div_le_lower_bound; lia. }
  pose proof (Z.mul_div_le (now - t0) rate Hr) as Hq. fold q in Hq.
  rewrite refill_meets_spec; cbn [level];
    [|unfold is_uint8 in *; lia|exact Hc|lia|lia].
  f_equal. unfold refill_spec, wrappingDifference. cbn [level stamp].
  rewrite Since_Unix by lia.
  replace (now - (t0 + rate * k)) with (now - t0 + (- k) * rate) by lia.
  rewrite Z_div_plus_full, Z_mod_plus_full by lia. fold q.
  pose proof (Z.div_mod (now - t0) rate ltac:(lia)) as Hdm. fold q in Hdm.
  pose proof (Z.mod_pos_bound (now - t0) rate Hr) as Hm.
  destruct (Z.leb_spec (now - t0 + - k * rate) 0) as [He|He].
  { assert (q = k) as -> by nia. reflexivity. }
  destruct (Z.leb_spec (q + - k) 0) as [Hz|Hz].
  { assert (q = k) as -> by lia. reflexivity. }
  rewrite Z.min_r by lia.
  destruct (Z.eqb_spec (L + k + (q + - k)) (L + k)); [lia|].
  f_equal; [lia|].
  rewrite !Unix_mod, Zplus_mod_idemp_l. f_equal. lia.
Qed.

Lemma total_nonneg ds : Forall (fun d => 0 <= d) ds -> 0 <= total ds.
Proof. induction 1; simpl; lia. Qed.

Lemma refill_many_polls L t0 rate cap ds : forall a,
  is_uint8 cap -> 0 <= L -> 0 < rate -> 0 <= a ->
  Forall (fun d => 0 <= d) ds ->
  a + total ds < 2 ^ 55 ->
  L + (a + total ds) / rate <= cap ->
  refill_many {| level := L + a / rate;
                 stamp := time56.Unix (t0 + rate * (a / rate)) |}
    (poll_times (t0 + a) ds) rate cap
  = Ret {| level := L + (a + total ds) / rate;
           stamp := time56.Unix (t0 + rate * ((a + total ds) / rate)) |}.
Proof.
  induction ds as [|d ds IH]; intros a Hc HL Hr Ha Hds Hw Hcap; simpl in *.
  - by rewrite Z.add_0_r.
  - inversion Hds as [|? ? Hd Hds']; subst.
    pose proof (total_nonneg ds Hds') as Ht.
    assert ((a + d) / rate <= (a + (d + total ds)) / rate) as Hmono
      by (apply Z.div_le_mono; lia).
    pose proof (Z.mul_div_le a rate Hr).
    rewrite (refill_poll L (a / rate) t0 rate cap (t0 + a + d));
      [|exact Hc|exact HL|apply Z.div_pos; lia|exact Hr| |].
    + replace (t0 + a + d - t0) with (a + d) by lia.
      replace (t0 + a + d) with (t0 + (a + d)) by lia.
      rewrite IH; auto; try lia.
      * by rewrite Z.add_assoc.
      * replace (a + d + total ds) with (a + (d + total ds)) by lia. exact Hcap.
    + lia.
    + replace (t0 + a + d - t0) with (a + d) by lia. lia.
Qed.

(** C4, with the window the wrapping clock imposes: from a bucket stamped at
    instant [t0], at a positive rate, over a wait of less than [2^55]
    nanoseconds that does not take the level above the capacity, refill calls
    at any subdivision of the wait credit [floor(E / rate)] tokens in all and
    end on the same level and stamp as one refill after the whole wait. *)
Theorem refill_non_drift b t0 rate cap ds :
  is_uint8 cap -> 0 <= level b -> time56.Unix t0 = stamp b ->
  0 < rate ->
  Forall (fun d => 0 <= d) ds ->
  total ds < 2 ^ 55 ->
  level b + total ds / rate <= cap ->
  non_drift_at b t0 rate cap ds.
Proof.
  intros Hc HL Hs Hr Hds Hw Hcap.
  destruct b as [L s]. cbn [level stamp] in *. subst s.
  pose proof (total_nonneg ds Hds) as Ht.
  unfold non_drift_at. cbn [level stamp]. split.
  - pose proof (refill_many_polls L t0 rate cap ds 0 Hc HL Hr ltac:(lia) Hds
                  ltac:(lia) ltac:(simpl; exact Hcap)) as H.
    rewrite Z.div_0_l, Z.mul_0_r, !Z.add_0_r in H by lia.
    exact H.
  - pose proof (refill_poll L 0 t0 rate cap (t0 + total ds) Hc HL ltac:(lia) Hr) as H.
    replace (t0 + total ds - t0) with (total ds) in H by lia.
    rewrite Z.mul_0_r, !Z.add_0_r in H.
    apply H; lia.
Qed.

(** Six polls 400 ns apart at 1000 ns per token: two tokens, 400 ns kept. *)
Lemma refill_non_drift_witness :
  non_drift_at (newTokenBucket 1 0) 0 1000 5 [400; 400; 400; 400; 400; 400].
Proof.
  apply refill_non_drift.
  - unfold is_uint8; lia.
  - simpl; lia.
  - reflexivity.
  - lia.
  - repeat constructor; lia.
  - simpl; lia.
  - vm_compute; congruence.
Defined.

(** C4 as stated, for every elapsed time, fails once the wait reaches the
    modulus of the 56-bit stamp: after [2^56] nanoseconds at [2^55]
    nanoseconds per token two tokens are due to an empty bucket of capacity
    5, and [refill] credits none. *)
Lemma refill_loses_a_wrapped_wait :
  refill (newTokenBucket 0 0) (0 + total [2 ^ 56]) (2 ^ 55) 5
  = Ret (newTokenBucket 0 0)
  /\ total [2 ^ 56] / 2 ^ 55 = 2
  /\ ~ non_drift_at (newTokenBucket 0 0) 0 (2 ^ 55) 5 [2 ^ 56].
Proof.
  split; [reflexivity|]. split; [reflexivity|].
  intros [_ H]. vm_compute in H. discriminate.
Qed.

(** ** Concurrent callers *)

Lemma run_snoc fuel cs c t0 bs t b t' :
  run fuel cs t0 = (bs, Ret tt, t) ->
  do_call fuel c t = (Ret b, t') ->
  run fuel (cs ++ [c]) t0 = (bs ++ [b], Ret tt, t').
Proof.
  revert t0 bs. induction cs as [|c0 cs IH]; intros t0 bs Hrun Hc; simpl in *.
  - inversion Hrun; subst. by rewrite Hc.
  - destruct (do_call fuel c0 t0) as [[b0| |] t1]; try discriminate.
    destruct (run fuel cs t1) as [[bs1 o1] t2] eqn:E1.
    inversion Hrun; subst.
    by rewrite (IH t1 bs1 E1 Hc).
Qed.

Lemma tally_insert f (l : list caller) k c c' :
  l !! k = Some c -> tally f (<[k := c']> l) = tally f l - f c + f c'.
Proof.
  revert k. induction l as [|c0 l IH]; intros k E; [done|].
  destruct k as [|k]; simpl in *.
  - inversion E; subst. lia.
  - rewrite (IH k E). lia.
Qed.

Lemma trues_snoc bs b : trues (bs ++ [b]) = trues bs + (if b then 1 else 0).
Proof. induction bs as [|b0 bs IH]; simpl; [lia|]. rewrite IH. lia. Qed.

Lemma trues_bounds bs : 0 <= trues bs <= Z.of_nat (length bs).
Proof. induction bs as [|[|] bs IH]; simpl length; simpl trues; lia. Qed.

(** A turn that moves a caller without returning leaves the linearization as
    it is. *)
Lemma coherent_move t0 cs0 sys lin k c c' :
  coherent t0 cs0 sys lin ->
  callers sys !! k = Some c ->
  is_returned c = false -> is_returned c' = false ->
  caller_call c' = caller_call c ->
  (forall id now existing new taken,
      c' = Swapping id now existing new taken ->
      attempt existing now (refillIntervalNanos (shared sys))
        (burstCapacity (shared sys)) = Ret (Some new, taken)) ->
  coherent t0 cs0 {| shared := shared sys; callers := <[k := c']> (callers sys) |} lin.
Proof.
  intros [[Ho Hr Hrun] Hok Hsw Hcalls Hwon Hlost] E Hc Hc' Hcall Hnew.
  pose proof (lookup_lt_Some _ _ _ E) as Hk.
  split; cbn [shared callers].
  - split; cbn [shared callers]; [exact Ho| |exact Hrun].
    intros j id now b. rewrite <- Hr.
    destruct (decide (k = j)) as [<-|Hne].
    + rewrite list_lookup_insert_eq by exact Hk. rewrite E.
      split; intros H; inversion H; subst; discriminate.
    + by rewrite list_lookup_insert_ne.
  - exact Hok.
  - intros j id now existing new taken.
    destruct (decide (k = j)) as [<-|Hne].
    + rewrite list_lookup_insert_eq by exact Hk.
      intros H; inversion H; subst. by eapply Hnew.
    + rewrite list_lookup_insert_ne by exact Hne. apply Hsw.
  - rewrite list_fmap_insert, Hcall, <- Hcalls.
    apply list_insert_id. by rewrite list_lookup_fmap, E.
  - rewrite (tally_insert won _ k c c' E), Hwon.
    destruct c, c'; simpl in *; try discriminate; lia.
  - rewrite (tally_insert lost _ k c c' E), Hlost.
    destruct c, c'; simpl in *; try discriminate; lia.
Qed.

(** A turn in which a caller returns is its linearization point: the limiter
    changes as it does under a [TakeToken] call made alone. *)
Lemma coherent_return t0 cs0 sys lin k c id now b t' :
  coherent t0 cs0 sys lin ->
  callers sys !! k = Some c ->
  is_returned c = false ->
  caller_call c = CallTakeToken id now ->
  TakeToken 1 id now (shared sys) = (Ret b, t') ->
  coherent t0 cs0
    {| shared := t'; callers := <[k := Returned id now b]> (callers sys) |}
    (lin ++ [mkEvent k id now b]).
Proof.
  intros [[Ho Hr Hrun] Hok Hsw Hcalls Hwon Hlost] E Hc Hcall Htake.
  pose proof (lookup_lt_Some _ _ _ E) as Hk.
  pose proof (TakeToken_ok 1 id now (shared sys) Hok) as Hok'.
  pose proof (TakeToken_config 1 id now (shared sys)) as Hcfg.
  rewrite Htake in Hok', Hcfg. cbn [snd] in Hok', Hcfg.
  assert (forall e, e ∈ lin -> ev_caller e <> k) as Hfresh.
  { intros [j id' now' b'] He <-. cbn [ev_caller] in *.
    apply Hr in He. rewrite E in He. inversion He; subst. discriminate. }
  split; cbn [shared callers].
  - split; cbn [shared callers].
    + rewrite map_app. apply NoDup_app. split; [exact Ho|]. split.
      * intros j Hj Hj'. simpl in Hj'. apply list_elem_of_singleton in Hj'. subst j.
        apply list_elem_of_fmap in Hj as (e & He1 & He2).
        by apply (Hfresh e He2).
      * simpl. apply NoDup_singleton.
    + intros j id' now' b'. rewrite elem_of_app, list_elem_of_singleton, <- Hr.
      destruct (decide (k = j)) as [<-|Hne].
      * rewrite list_lookup_insert_eq by exact Hk. rewrite E. split.
        -- intros H; inversion H; subst. by right.
        -- intros [H|H]; [inversion H; subst; discriminate|].
           inversion H; subst. reflexivity.
      * rewrite list_lookup_insert_ne by exact Hne. split; [by left|].
        intros [H|H]; [exact H|]. inversion H; subst. contradiction.
    + rewrite !map_app. simpl. eapply run_snoc; [exact Hrun|exact Htake].
  - exact Hok'.
  - intros j id' now' existing new taken.
    destruct Hcfg as (_ & -> & -> & _).
    destruct (decide (k = j)) as [<-|Hne].
    + rewrite list_lookup_insert_eq by exact Hk. discriminate.
    + rewrite list_lookup_insert_ne by exact Hne. apply Hsw.
  - rewrite list_fmap_insert. cbn [caller_call]. rewrite <- Hcall, <- Hcalls.
    apply list_insert_id. by rewrite list_lookup_fmap, E.
  - rewrite (tally_insert won _ k c _ E), Hwon, map_app.
    cbn [map ev_taken]. rewrite trues_snoc.
    destruct c, b; simpl in *; try discriminate; lia.
  - rewrite (tally_insert lost _ k c _ E), Hlost, map_app.
    cbn [map ev_taken]. rewrite trues_snoc.
    rewrite length_app. simpl length.
    destruct c, b; simpl in *; try discriminate; lia.
Qed.

(** Every turn keeps a linearization. *)
Lemma turn_coherent t0 cs0 sys lin k :
  coherent t0 cs0 sys lin -> exists lin', coherent t0 cs0 (turn sys k) lin'.
Proof.
  intros Hcoh. unfold turn.
  destruct (existsb is_panicked (callers sys)); [by exists lin|].
  destruct (callers sys !! k) as [c|] eqn:E; [|by exists lin].
  pose proof (coh_ok _ _ _ _ Hcoh) as Hok.
  destruct c as [id now|id now existing new taken|id now taken|id now m];
    cbn [caller_step].
  - destruct (index_lookup (shared sys) id Hok) as (H0 & w & Ew).
    rewrite (slice_Get_lookup _ _ _ H0 Ew).
    destruct (attempt w now _ _) as [[[new|] taken]|m|] eqn:Ea.
    + exists lin. eapply coherent_move; eauto.
      intros ? ? ? ? ? H; inversion H; subst. exact Ea.
    + exists (lin ++ [mkEvent k id now taken]).
      eapply coherent_return; eauto.
      destruct (TakeToken_attempt 0 id now (shared sys) Hok) as (w' & Ew' & ->).
      rewrite Ew in Ew'. inversion Ew'; subst w'. by rewrite Ea.
    + exists lin. eapply coherent_move; eauto. discriminate.
    + exists lin. eapply coherent_move; eauto. discriminate.
  - destruct (index_lookup (shared sys) id Hok) as (H0 & w & Ew).
    unfold slice_CompareAndSwap.
    destruct (Z.ltb_spec (index (shared sys) id) 0); [lia|].
    rewrite Ew.
    destruct (Z.eqb_spec w existing) as [->|Hne].
    + exists (lin ++ [mkEvent k id now taken]).
      eapply coherent_return; eauto.
      destruct (TakeToken_attempt 0 id now (shared sys) Hok) as (w' & Ew' & ->).
      rewrite Ew in Ew'. inversion Ew'; subst w'.
      by rewrite (coh_swapping _ _ _ _ Hcoh _ _ _ _ _ _ E).
    + exists lin. eapply coherent_move; eauto. discriminate.
  - exists lin. rewrite list_insert_id by exact E. by destruct sys.
  - exists lin. rewrite list_insert_id by exact E. by destruct sys.
Qed.

Lemma exec_coherent t0 cs0 sched : forall sys lin,
  coherent t0 cs0 sys lin -> exists lin', coherent t0 cs0 (exec sched sys) lin'.
Proof.
  induction sched as [|k sched IH]; intros sys lin H; simpl.
  - by exists lin.
  - destruct (turn_coherent t0 cs0 sys lin k H) as [lin' H'].
    by apply (IH _ lin').
Qed.

Lemma tally_entered f cs :
  (forall id now, f (Entered id now) = 0) ->
  Forall (fun c => is_entered c = true) cs -> tally f cs = 0.
Proof.
  intros Hf. induction 1 as [|c cs Hc _ IH]; simpl; [reflexivity|].
  destruct c; try discriminate. rewrite Hf, IH. reflexivity.
Qed.

Lemma coherent_initially t0 cs0 :
  limiter_ok t0 -> Forall (fun c => is_entered c = true) cs0 ->
  coherent t0 cs0 {| shared := t0; callers := cs0 |} [].
Proof.
  intros Hok Hent. split; cbn [shared callers].
  - split; cbn [shared callers].
    + constructor.
    + intros k id now b. split.
      * intros E. eapply Forall_lookup_1 in Hent; [|exact E]. discriminate.
      * intros H. by apply elem_of_nil in H.
    + reflexivity.
  - exact Hok.
  - intros k id now existing new taken E.
    eapply Forall_lookup_1 in Hent; [|exact E]. discriminate.
  - reflexivity.
  - by apply tally_entered.
  - simpl. by apply tally_entered.
Qed.

Lemma tally_returned cs :
  Forall (fun c => is_returned c = true) cs ->
  tally won cs + tally lost cs = Z.of_nat (length cs).
Proof.
  induction 1 as [|c cs Hc _ IH]; [reflexivity|].
  simpl tally. simpl length.
  destruct c as [| |id now [|]|]; try discriminate; simpl; lia.
Qed.

(** Calls for one identifier, made one after the other while nothing
    refills, succeed until the bucket is empty. *)
Lemma run_same_bucket fuel id cs : forall t,
  limiter_ok t ->
  Forall (fun c => exists now, c = CallTakeToken id now /\ quiet t now) cs ->
  exists bs t',
    run (S fuel) cs t = (bs, Ret tt, t')
    /\ trues bs = Z.min (Z.of_nat (length cs)) (bucket_level t (index t id))
    /\ bucket_level t' (index t id) = bucket_level t (index t id) - trues bs.
Proof.
  induction cs as [|c cs IH]; intros t Hok Hcs.
  - exists [], t. pose proof (bucket_level_bounds t (index t id) Hok).
    simpl. split; [reflexivity|]. lia.
  - inversion Hcs as [|? ? (now & -> & Hq) Hcs']; subst.
    destruct (index_lookup t id Hok) as (H0 & _).
    simpl run.
    destruct (TakeToken_no_refill fuel id now t Hok Hq)
      as [(Hp & t1 & -> & Hok1 & Hcfg & Hst & Hlev)|(Hz & ->)].
    + destruct Hcfg as (Hm & _ & Hr & _).
      assert (Forall (fun c => exists now, c = CallTakeToken id now /\ quiet t1 now) cs)
        as Hcs1.
      { eapply Forall_impl; [exact Hcs'|]. intros c (now' & -> & Hq').
        exists now'. split; [reflexivity|]. by apply (quiet_same t). }
      destruct (IH t1 Hok1 Hcs1) as (bs & t2 & -> & Htr & Hl2).
      rewrite (index_same_mask t t1) in Htr, Hl2 by exact Hm.
      rewrite (Hlev _ H0), Z.eqb_refl in Htr, Hl2.
      exists (true :: bs), t2. split; [reflexivity|].
      simpl trues. simpl length. lia.
    + destruct (IH t Hok Hcs') as (bs & t2 & -> & Htr & Hl2).
      exists (false :: bs), t2. split; [reflexivity|].
      simpl trues. simpl length. lia.
Qed.

(** The same, when the calls find the identifier's bucket calm; the other
    buckets may be due anything. *)
Lemma run_same_bucket_calm fuel id cs : forall t w,
  limiter_ok t ->
  buckets t !! Z.to_nat (index t id) = Some w ->
  Forall (fun c => exists now,
            c = CallTakeToken id now
            /\ calm (refillIntervalNanos t) now (stamp (unpack w))) cs ->
  exists bs t',
    run (S fuel) cs t = (bs, Ret tt, t')
    /\ trues bs = Z.min (Z.of_nat (length cs)) (level (unpack w))
    /\ bucket_level t' (index t id) = level (unpack w) - trues bs.
Proof.
  induction cs as [|c cs IH]; intros t w Hok E Hcs.
  - exists [], t. destruct (limiter_ok_word t _ w Hok E) as [_ [Hl _]].
    unfold bucket_level. rewrite E. cbn [run trues fold_right length].
    split; [reflexivity|]. lia.
  - inversion Hcs as [|? ? (now & -> & Hcalm) Hcs']; subst.
    destruct (limiter_ok_word t _ w Hok E) as [Hw Hl].
    destruct (unpack_range w Hw) as [Hu8 Hts].
    pose proof (refill_calm _ _ _ (burstCapacity t) Hcalm) as Hre.
    destruct (TakeToken_attempt fuel id now t Hok) as (w' & E' & Et).
    rewrite E in E'. inversion E'; subst w'. clear E'.
    pose proof (TakeToken_ok (S fuel) id now t Hok) as Hok1.
    cbn [run do_call].
    destruct (attempt_no_refill w now _ _ Hw Hre) as [[Hp Ea]|[Hz Ea]];
      rewrite Ea in Et; rewrite Et.
    + rewrite Et in Hok1. cbn [snd] in Hok1.
      set (w1 := packed {| level := level (unpack w) - 1;
                           stamp := stamp (unpack w) |}) in *.
      set (t1 := with_buckets t (<[Z.to_nat (index t id) := w1]> (buckets t))) in *.
      assert (unpack w1 = {| level := level (unpack w) - 1;
                             stamp := stamp (unpack w) |}) as Hu
        by (apply unpack_packed; [cbn [level]; lia|exact Hts]).
      assert (buckets t1 !! Z.to_nat (index t1 id) = Some w1) as E1.
      { change (index t1 id) with (index t id). unfold t1.
        cbn [buckets with_buckets].
        apply list_lookup_insert_eq. by eapply lookup_lt_Some. }
      assert (Forall (fun c => exists now,
                c = CallTakeToken id now
                /\ calm (refillIntervalNanos t1) now (stamp (unpack w1))) cs)
        as Hcs1 by (by rewrite Hu).
      destruct (IH t1 w1 Hok1 E1 Hcs1) as (bs & t2 & -> & Htr & Hl2).
      rewrite Hu in Htr, Hl2. cbn [level] in Htr, Hl2.
      change (index t1 id) with (index t id) in Hl2.
      exists (true :: bs), t2. split; [reflexivity|].
      simpl trues. simpl length. lia.
    + destruct (IH t w Hok E Hcs') as (bs & t2 & -> & Htr & Hl2).
      exists (false :: bs), t2. split; [reflexivity|].
      simpl trues. simpl length. lia.
Qed.

(** A limiter, at the instant of its construction: full and quiet. *)
Lemma fresh_limiter n cap r unit clock t :
  is_uint64 n -> is_uint8 cap ->
  NewTokenBucketLimiter n cap r unit clock = Ret (Some t, None) ->
  limiter_ok t /\ quiet t clock /\ burstCapacity t = cap
  /\ forall i, 0 <= i < n -> bucket_level t i = cap.
Proof.
  intros Hn Hc E.
  pose proof (NewTokenBucketLimiter_ok _ _ _ _ _ _ _ Hn Hc E) as Hok.
  destruct (NewTokenBucketLimiter_limiter _ _ _ _ _ _ _ Hn E) as (_ & _ & _ & ->).
  pose proof (Unix_is_time clock) as Ht.
  assert (unpack (packed (newTokenBucket cap (time56.Unix clock)))
          = newTokenBucket cap (time56.Unix clock)) as Hu
    by (apply unpack_packed; [cbn [level]; unfold is_uint8 in Hc; lia|exact Ht]).
  split; [exact Hok|]. split; [|split; [reflexivity|]].
  - unfold quiet, stamps. cbn [buckets refillIntervalNanos].
    rewrite fmap_replicate, Hu. cbn [stamp].
    apply Forall_replicate. right.
    rewrite Since_Unix by lia. lia.
  - intros i Hi. unfold bucket_level. cbn [buckets].
    rewrite lookup_replicate_2 by lia. by rewrite Hu.
Qed.

(** The calls of the linearized events are the calls of the callers. *)
Lemma linearized_calls t0 cs0 sys lin (P : call -> Prop) :
  coherent t0 cs0 sys lin ->
  Forall (fun c => P (caller_call c)) cs0 ->
  Forall P (map ev_call lin).
Proof.
  intros Hcoh HP. apply Forall_forall. intros c Hc.
  apply list_elem_of_fmap in Hc as ([k id now b] & -> & He).
  apply (lin_returned _ _ _ (coh_lin _ _ _ _ Hcoh)) in He.
  assert (map caller_call (callers sys) !! k = Some (CallTakeToken id now)) as Hk
    by (by rewrite list_lookup_fmap, He).
  rewrite (coh_calls _ _ _ _ Hcoh), list_lookup_fmap in Hk.
  destruct (cs0 !! k) as [c0|] eqn:E0; [|discriminate].
  simpl in Hk. inversion Hk as [Hc0].
  eapply Forall_lookup_1 in HP; [|exact E0].
  unfold ev_call. cbn [ev_id ev_now]. by rewrite <- Hc0.
Qed.

Lemma turn_single c t :
  is_panicked c = false ->
  turn {| shared := t; callers := [c] |} 0
  = {| shared := snd (caller_step c t); callers := [fst (caller_step c t)] |}.
Proof.
  intros H. unfold turn. cbn [callers shared existsb]. rewrite H.
  change ([c] !! 0%nat) with (Some c). cbv beta iota.
  destruct (caller_step c t). reflexivity.
Qed.

Lemma turn_single_panicked id now m t :
  turn {| shared := t; callers := [Panicked id now m] |} 0
  = {| shared := t; callers := [Panicked id now m] |}.
Proof. reflexivity. Qed.

Lemma attempt_never_spins w now rate cap : attempt w now rate cap <> Spin.
Proof.
  unfold attempt. destruct (refill _ _ _ _) as [r| |] eqn:Er.
  - destruct (take r). destruct (negb _); discriminate.
  - discriminate.
  - unfold refill in Er. repeat case_match; discriminate.
Qed.

(** A caller that runs alone does what [TakeToken] does. *)
Lemma caller_alone id now t :
  limiter_ok t ->
  match TakeToken 1 id now t with
  | (Ret b, t') =>
      exec [0; 0]%nat {| shared := t; callers := [Entered id now] |}
      = {| shared := t'; callers := [Returned id now b] |}
  | (Panic m, t') =>
      exec [0; 0]%nat {| shared := t; callers := [Entered id now] |}
      = {| shared := t'; callers := [Panicked id now m] |}
  | (Spin, _) => False
  end.
Proof.
  intros Hok.
  destruct (TakeToken_attempt 0 id now t Hok) as (w & Ew & ->).
  destruct (index_lookup t id Hok) as (H0 & _).
  unfold exec. cbn [fold_left].
  rewrite turn_single by reflexivity. cbn [caller_step].
  rewrite (slice_Get_lookup _ _ _ H0 Ew).
  destruct (attempt w now _ _) as [[[new|] taken]|m|] eqn:Ea; cbn [fst snd].
  - rewrite turn_single by reflexivity. cbn [caller_step].
    unfold slice_CompareAndSwap.
    destruct (Z.ltb_spec (index t id) 0); [lia|].
    by rewrite Ew, Z.eqb_refl.
  - by rewrite turn_single.
  - apply turn_single_panicked.
  - by apply attempt_never_spins in Ea.
Qed.

(** ** Every race can be run to its end *)

Lemma alive_existsb cs :
  Forall (fun c => is_panicked c = false) cs -> existsb is_panicked cs = false.
Proof. induction 1 as [|c cs Hc _ IH]; simpl; [reflexivity|]. by rewrite Hc, IH. Qed.

(** With a rate other than zero a turn panics nobody, keeps the rate and
    brings the caller a turn nearer to its return. *)
Lemma caller_step_nearer c t :
  limiter_ok t -> refillIntervalNanos t <> 0 -> is_panicked c = false ->
  is_panicked (fst (caller_step c t)) = false
  /\ refillIntervalNanos (snd (caller_step c t)) = refillIntervalNanos t
  /\ (distance (fst (caller_step c t)) (snd (caller_step c t))
      <= pred (distance c t))%nat.
Proof.
  intros Hok Hr Hc.
  destruct c as [id now|id now existing new taken|id now taken|id now m];
    try discriminate; cbn [caller_step].
  - destruct (index_lookup t id Hok) as (H0 & w & Ew).
    rewrite (slice_Get_lookup _ _ _ H0 Ew).
    destruct (attempt_returns w now (refillIntervalNanos t) (burstCapacity t) Hr)
      as [[[new|] taken] ->]; cbn [fst snd distance is_panicked].
    + rewrite decide_True by exact Ew. auto.
    + split; [reflexivity|]. split; [reflexivity|]. lia.
  - destruct (index_lookup t id Hok) as (H0 & w & Ew).
    unfold slice_CompareAndSwap.
    destruct (Z.ltb_spec (index t id) 0); [lia|].
    rewrite Ew.
    destruct (Z.eqb_spec w existing) as [->|Hne];
      cbn [fst snd distance is_panicked].
    + split; [reflexivity|]. split; [reflexivity|]. lia.
    + rewrite decide_False by congruence. auto.
  - cbn [fst snd distance]. auto.
Qed.

Lemma turn_nearer sys k c :
  limiter_ok (shared sys) -> alive sys ->
  refillIntervalNanos (shared sys) <> 0 ->
  callers sys !! k = Some c ->
  alive (turn sys k)
  /\ refillIntervalNanos (shared (turn sys k)) = refillIntervalNanos (shared sys)
  /\ length (callers (turn sys k)) = length (callers sys)
  /\ (forall j, j <> k -> callers (turn sys k) !! j = callers sys !! j)
  /\ exists c', callers (turn sys k) !! k = Some c'
       /\ (distance c' (shared (turn sys k)) <= pred (distance c (shared sys)))%nat.
Proof.
  intros Hok Hal Hr E.
  pose proof (lookup_lt_Some _ _ _ E) as Hk.
  assert (is_panicked c = false) as Hc
    by (eapply Forall_lookup_1 in Hal; [exact Hal|exact E]).
  destruct (caller_step_nearer c (shared sys) Hok Hr Hc) as (Hp & Hrate & Hd).
  unfold turn. rewrite (alive_existsb _ Hal), E.
  destruct (caller_step c (shared sys)) as [c' t'].
  cbn [fst snd shared callers] in *.
  split; [by apply Forall_insert|]. split; [exact Hrate|].
  split; [by rewrite length_insert|]. split.
  - intros j Hj. by rewrite list_lookup_insert_ne.
  - exists c'. split; [by rewrite list_lookup_insert_eq|exact Hd].
Qed.

Lemma distance_le_3 c t : (distance c t <= 3)%nat.
Proof. destruct c; simpl; try lia. case_decide; lia. Qed.

Lemma distance_0 c t :
  distance c t = 0%nat -> is_panicked c = false ->
  exists id now b, c = Returned id now b.
Proof.
  destruct c; simpl; try discriminate; eauto.
  case_decide; discriminate.
Qed.

(** Three turns in a row return a caller, whatever the others had done. *)
Lemma three_turns t0 cs0 sys lin k :
  coherent t0 cs0 sys lin -> alive sys ->
  refillIntervalNanos (shared sys) <> 0 ->
  (k < length (callers sys))%nat ->
  let sys' := exec [k; k; k] sys in
  (exists lin', coherent t0 cs0 sys' lin')
  /\ alive sys'
  /\ refillIntervalNanos (shared sys') = refillIntervalNanos (shared sys)
  /\ length (callers sys') = length (callers sys)
  /\ (forall j, j <> k -> callers sys' !! j = callers sys !! j)
  /\ returned_at sys' k.
Proof.
  intros Hcoh Hal Hr Hk. cbn zeta.
  destruct (lookup_lt_is_Some_2 _ _ Hk) as [c E].
  pose proof (distance_le_3 c (shared sys)) as Hd.
  destruct (turn_nearer sys k c (coh_ok _ _ _ _ Hcoh) Hal Hr E)
    as (Hal1 & Hr1 & Hl1 & Ho1 & c1 & E1 & Hd1).
  destruct (turn_coherent t0 cs0 sys lin k Hcoh) as [lin1 Hcoh1].
  rewrite <- Hr1 in Hr.
  destruct (turn_nearer _ k c1 (coh_ok _ _ _ _ Hcoh1) Hal1 Hr E1)
    as (Hal2 & Hr2 & Hl2 & Ho2 & c2 & E2 & Hd2).
  destruct (turn_coherent t0 cs0 _ lin1 k Hcoh1) as [lin2 Hcoh2].
  rewrite <- Hr2 in Hr.
  destruct (turn_nearer _ k c2 (coh_ok _ _ _ _ Hcoh2) Hal2 Hr E2)
    as (Hal3 & Hr3 & Hl3 & Ho3 & c3 & E3 & Hd3).
  destruct (turn_coherent t0 cs0 _ lin2 k Hcoh2) as [lin3 Hcoh3].
  unfold exec. cbn [fold_left].
  split; [by exists lin3|]. split; [exact Hal3|].
  split; [congruence|]. split; [congruence|]. split.
  - intros j Hj. rewrite Ho3, Ho2, Ho1 by exact Hj. reflexivity.
  - assert (is_panicked c3 = false) as Hp
      by (eapply Forall_lookup_1 in Hal3; [exact Hal3|exact E3]).
    assert (distance c3 (shared (turn (turn (turn sys k) k) k)) = 0%nat) as Hz
      by lia.
    destruct (distance_0 c3 _ Hz Hp) as (id & now & b & ->).
    by exists id, now, b.
Qed.

Lemma one_by_one_returns t0 cs0 ks : forall sys lin,
  coherent t0 cs0 sys lin -> alive sys ->
  refillIntervalNanos (shared sys) <> 0 ->
  Forall (fun k => (k < length (callers sys))%nat) ks ->
  let sys' := exec (flat_map (fun k => [k; k; k]) ks) sys in
  length (callers sys') = length (callers sys)
  /\ forall j, j ∈ ks \/ returned_at sys j -> returned_at sys' j.
Proof.
  induction ks as [|k ks IH]; intros sys lin Hcoh Hal Hr Hks; cbn zeta.
  - simpl. split; [reflexivity|]. intros j [Hj|Hj]; [|exact Hj].
    by apply elem_of_nil in Hj.
  - inversion Hks as [|? ? Hk Hks']; subst.
    change (flat_map (fun k0 => [k0; k0; k0]) (k :: ks))
      with ([k; k; k] ++ flat_map (fun k0 => [k0; k0; k0]) ks).
    unfold exec. rewrite fold_left_app. fold (exec [k; k; k] sys).
    destruct (three_turns t0 cs0 sys lin k Hcoh Hal Hr Hk)
      as ([lin1 Hcoh1] & Hal1 & Hr1 & Hl1 & Ho1 & Hret1).
    set (sys1 := exec [k; k; k] sys) in *.
    rewrite <- Hr1 in Hr.
    assert (Forall (fun k0 => (k0 < length (callers sys1))%nat) ks) as Hks1
      by (by rewrite Hl1).
    destruct (IH sys1 lin1 Hcoh1 Hal1 Hr Hks1) as [Hl2 Hret2].
    fold (exec (flat_map (fun k0 => [k0; k0; k0]) ks) sys1).
    split; [congruence|].
    intros j Hj. apply Hret2.
    destruct (decide (j = k)) as [->|Hne]; [by right|].
    destruct Hj as [Hj|Hj].
    + left. apply elem_of_cons in Hj as [?|?]; [contradiction|assumption].
    + right. unfold returned_at. by rewrite Ho1.
Qed.

(** From wherever a schedule has brought the callers, short of a panic, the
    schedule [one_by_one] brings every call to its return. *)
Lemma races_complete t0 cs0 sched :
  limiter_ok t0 -> refillIntervalNanos t0 <> 0 ->
  Forall (fun c => is_entered c = true) cs0 ->
  alive (exec sched {| shared := t0; callers := cs0 |}) ->
  Forall (fun c => is_returned c = true)
    (callers (exec (sched ++ one_by_one (length cs0))
                {| shared := t0; callers := cs0 |})).
Proof.
  intros Hok Hr Hent Hal.
  destruct (exec_coherent t0 cs0 sched _ [] (coherent_initially t0 cs0 Hok Hent))
    as [lin Hcoh].
  unfold exec at 1. rewrite fold_left_app.
  fold (exec sched {| shared := t0; callers := cs0 |}).
  set (sys := exec sched {| shared := t0; callers := cs0 |}) in *.
  assert (length (callers sys) = length cs0) as Hlen.
  { rewrite <- (length_map caller_call (callers sys)),
      (coh_calls _ _ _ _ Hcoh). apply length_map. }
  assert (refillIntervalNanos (shared sys) <> 0) as Hr'.
  { pose proof (run_config 1 (map ev_call lin) t0) as (_ & _ & Hc & _).
    rewrite (lin_run _ _ _ (coh_lin _ _ _ _ Hcoh)) in Hc. simpl in Hc. congruence. }
  destruct (one_by_one_returns t0 cs0 (seq 0 (length cs0)) sys lin Hcoh Hal Hr')
    as [Hl Hret].
  { apply Forall_forall. intros k Hk. apply elem_of_seq in Hk. lia. }
  fold (exec (one_by_one (length cs0)) sys). unfold one_by_one.
  apply Forall_lookup. intros j c Ej.
  destruct (Hret j) as (id & now & b & E).
  - left. apply elem_of_seq. apply lookup_lt_Some in Ej. lia.
  - rewrite Ej in E. by inversion E.
Qed.

(** C5, as the code has it: [TakeToken] calls that race on a limiter are
    linearizable: after every schedule of their loads and compare-and-swaps,
    the calls that have returned can be put in an order in which, made one
    after the other, they give the same answers and leave the same array.
    For callers of one identifier at instants at which its bucket accrues no
    whole token (less than one interval since its stamp, or a negative
    rate), once all have returned: as many have succeeded as the bucket held
    tokens (all of them, if there were fewer callers), the others have
    failed, and the bucket has lost exactly one token per success; launched
    on a full bucket, at least [burstCapacity] callers score exactly
    [burstCapacity] successes.  And when the rate is not zero every schedule
    that no panic has cut short can be continued until all the calls have
    returned. *)
Theorem concurrent_TakeToken_linearizable t0 cs0 sched :
  limiter_ok t0 ->
  Forall (fun c => is_entered c = true) cs0 ->
  let sys := exec sched {| shared := t0; callers := cs0 |} in
  let n := Z.of_nat (length cs0) in
  (exists lin, linearizes t0 sys lin)
  /\ (forall id w,
        buckets t0 !! Z.to_nat (index t0 id) = Some w ->
        Forall (fun c => exists now,
                  c = Entered id now
                  /\ calm (refillIntervalNanos t0) now (stamp (unpack w))) cs0 ->
        Forall (fun c => is_returned c = true) (callers sys) ->
        tally won (callers sys) = Z.min n (level (unpack w))
        /\ tally lost (callers sys) = n - tally won (callers sys)
        /\ bucket_level (shared sys) (index t0 id)
           = level (unpack w) - tally won (callers sys)
        /\ (level (unpack w) = burstCapacity t0 ->
            burstCapacity t0 <= n ->
            tally won (callers sys) = burstCapacity t0
            /\ tally lost (callers sys) = n - burstCapacity t0))
  /\ (refillIntervalNanos t0 <> 0 -> alive sys ->
      Forall (fun c => is_returned c = true)
        (callers (exec (sched ++ one_by_one (length cs0))
                    {| shared := t0; callers := cs0 |}))).
Proof.
  intros Hok Hent sys n.
  destruct (exec_coherent t0 cs0 sched _ [] (coherent_initially t0 cs0 Hok Hent))
    as [lin Hcoh].
  fold sys in Hcoh.
  split; [exists lin; exact (coh_lin _ _ _ _ Hcoh)|].
  split; [|intros Hr Hal; by apply races_complete].
  intros id w Ew Hid Hret.
  assert (Forall (fun c => exists now,
              c = CallTakeToken id now
              /\ calm (refillIntervalNanos t0) now (stamp (unpack w)))
            (map ev_call lin)) as Hcalls.
  { eapply linearized_calls; [exact Hcoh|].
    eapply Forall_impl; [exact Hid|].
    intros c (now & -> & Hq). exists now. by split. }
  destruct (run_same_bucket_calm 0 id _ t0 w Hok Ew Hcalls)
    as (bs & t' & Hrun & Htr & Hlev).
  rewrite (lin_run _ _ _ (coh_lin _ _ _ _ Hcoh)) in Hrun.
  inversion Hrun; subst bs t'. clear Hrun.
  pose proof (coh_won _ _ _ _ Hcoh) as Hwon.
  pose proof (coh_lost _ _ _ _ Hcoh) as Hlost.
  pose proof (tally_returned _ Hret) as Hall.
  assert (length (callers sys) = length cs0) as Hlen.
  { rewrite <- (length_map caller_call (callers sys)),
      (coh_calls _ _ _ _ Hcoh). apply length_map. }
  rewrite length_map in Htr.
  assert (Z.of_nat (length lin) = n) as Hn by (unfold n; lia).
  rewrite Hn in Htr. rewrite <- Hwon in Htr, Hlev.
  split; [exact Htr|]. split; [lia|]. split; [exact Hlev|].
  intros Hfull Hmany. lia.
Qed.

Lemma race_limiter_fresh :
  NewTokenBucketLimiter 1 2 1%float second 0 = Ret (Some race_limiter, None).
Proof. vm_compute. reflexivity. Qed.

(** The race of three callers for two tokens. *)
Lemma concurrent_TakeToken_linearizable_witness :
  callers (exec race_schedule {| shared := race_limiter; callers := race_callers |})
  = [Returned (list_byte_of_string "x") 0 true;
     Returned (list_byte_of_string "x") 0 true;
     Returned (list_byte_of_string "x") 0 false]
  /\ tally won
       (callers (exec race_schedule
                   {| shared := race_limiter; callers := race_callers |}))
     = burstCapacity race_limiter.
Proof.
  split; [vm_compute; reflexivity|].
  assert (is_uint64 1) as H1 by (unfold is_uint64; lia).
  assert (is_uint8 2) as H2 by (unfold is_uint8; lia).
  destruct (fresh_limiter 1 2 1%float second 0 race_limiter H1 H2
              race_limiter_fresh) as (Hok & _ & _ & _).
  destruct (concurrent_TakeToken_linearizable race_limiter race_callers
              race_schedule Hok) as (_ & H & _).
  - repeat constructor.
  - destruct (H (list_byte_of_string "x") (packed (newTokenBucket 2 0)))
      as (_ & _ & _ & Hw).
    + reflexivity.
    + repeat constructor; exists 0; (split; [reflexivity|]);
        right; left; vm_compute; congruence.
    + vm_compute. repeat constructor.
    + apply Hw; vm_compute; congruence.
Defined.

(** C5 as stated, for calls with no time elapsed between them, fails once
    time has elapsed before them: seven callers that race at one instant,
    three seconds after the stamp of a full bucket of five tokens, all
    return, and six of them succeed.  The first success leaves the stamp of
    the full bucket where it was, and the next caller's [refill] credits the
    idle time. *)
Lemma seven_callers_after_idle :
  Forall (fun c => is_returned c = true)
    (callers (exec idle_race_schedule
                {| shared := four_buckets; callers := idle_race_callers |}))
  /\ tally won
       (callers (exec idle_race_schedule
                   {| shared := four_buckets; callers := idle_race_callers |}))
     = 6
  /\ tally lost
       (callers (exec idle_race_schedule
                   {| shared := four_buckets; callers := idle_race_callers |}))
     = 1
  /\ bucket_level four_buckets (index four_buckets id_x) = 5
  /\ burstCapacity four_buckets = 5.
Proof.
  split; [vm_compute; repeat constructor|].
  repeat split; vm_compute; reflexivity.
Qed.

(** * Part III: further properties of the code *)

(** ** The packed word, both ways *)

Lemma packed_unpack w : is_uint64 w -> packed (unpack w) = w.
Proof.
  intros Hw. destruct (unpack_range w Hw) as [[H0 _] Ht].
  rewrite packed_value by assumption.
  destruct (unpack_fields w) as [-> ->].
  pose proof (Z.div_mod w (2 ^ 56) ltac:(lia)). lia.
Qed.

(** [packed] and [unpack] are inverse to each other: a bucket with an 8-bit
    level and a 56-bit stamp packs into a 64-bit word, level in the high
    byte, that unpacks to the same bucket; and every 64-bit word is the
    packing of the bucket it unpacks to. *)
Theorem packed_unpack_round_trip b w :
  is_uint8 (level b) -> time56.is_time (stamp b) -> is_uint64 w ->
  unpack (packed b) = b
  /\ is_uint64 (packed b)
  /\ packed b = level b * 2 ^ 56 + stamp b
  /\ packed (unpack w) = w.
Proof.
  intros Hl Ht Hw. pose proof Hl as [H0 _].
  split; [by apply unpack_packed|].
  split; [by apply packed_range|].
  split; [by apply packed_value|by apply packed_unpack].
Qed.

(** A bucket of 200 tokens and the largest word. *)
Lemma packed_unpack_round_trip_witness :
  unpack (packed (newTokenBucket 200 12345)) = newTokenBucket 200 12345
  /\ packed (unpack (2 ^ 64 - 1)) = 2 ^ 64 - 1.
Proof.
  destruct (packed_unpack_round_trip (newTokenBucket 200 12345) (2 ^ 64 - 1))
    as (H1 & _ & _ & H2).
  - unfold is_uint8; simpl; lia.
  - unfold time56.is_time; simpl; rewrite modulus_eq; lia.
  - unfold is_uint64; lia.
  - split; [exact H1|exact H2].
Defined.

(** ** Refill: when it panics, and what a second call adds *)

Lemma refill_same_level b now rate cap b' :
  refill b now rate cap = Ret b' -> level b' = level b -> b' = b.
Proof.
  unfold refill.
  repeat case_match; intros E; inversion E; subst; try reflexivity.
  all: cbn [level]; intros Hl.
  all: match goal with H : negb (_ =? _) = true |- _ =>
    rewrite negb_true_iff, Z.eqb_neq in H; congruence end.
Qed.

(** [refill] panics exactly when the rate is zero and time has passed since
    the stamp, and then on the division; in every other case it returns a
    bucket. *)
Theorem refill_panics_iff b now rate cap :
  (forall m, refill b now rate cap = Panic m <->
     (rate = 0 /\ 0 < time56.Since (time56.Unix now) (stamp b)
      /\ m = "runtime error: integer divide by zero"%string))
  /\ ((rate <> 0 \/ time56.Since (time56.Unix now) (stamp b) <= 0) <->
      exists b', refill b now rate cap = Ret b').
Proof.
  unfold refill.
  destruct (Z.leb_spec (time56.Since (time56.Unix now) (stamp b)) 0) as [He|He].
  - split.
    + intros m. split; [discriminate|]. intros (_ & H & _). lia.
    + split; eauto.
  - destruct (Z.eqb_spec rate 0) as [Hr|Hr].
    + split.
      * intros m. split.
        -- intros E. inversion E. auto.
        -- intros (_ & _ & ->). reflexivity.
      * split; [intros [?|?]; [contradiction|lia]|].
        intros [b' E]. discriminate.
    + split.
      * intros m. split; [|intros (? & _); contradiction].
        repeat case_match; discriminate.
      * split; [|auto]. intros _. repeat case_match; eauto.
Qed.

(** A second [refill] at the same instant changes nothing: whatever the first
    call returned, the second returns it again, for every bucket, rate and
    capacity. *)
Theorem refill_twice b now rate cap b' :
  refill b now rate cap = Ret b' -> refill b' now rate cap = Ret b'.
Proof.
  intros E. pose proof E as E0.
  pose proof (Since_range (time56.Unix now) (stamp b)) as Re.
  revert E. unfold refill at 1.
  set (e := time56.Since (time56.Unix now) (stamp b)) in *.
  destruct (Z.leb_spec e 0) as [|He]; [intros E; inversion E; by subst|].
  destruct (Z.eqb_spec rate 0) as [|Hr]; [discriminate|].
  pose proof (quot_bound e rate He Hr) as Bq.
  pose proof (rem_bound e rate He Hr) as Br.
  rewrite (int64_id (Z.quot e rate)) by (unfold is_int64; lia).
  rewrite (int64_id (Z.rem e rate)) by (unfold is_int64; lia).
  destruct (Z.leb_spec (Z.quot e rate) 0) as [|Hq];
    [intros E; inversion E; by subst|].
  assert (0 < rate) as Hpos.
  { destruct (Z.lt_ge_cases 0 rate); [assumption|].
    destruct (quot_neg_rate e rate He ltac:(lia)). lia. }
  destruct (quot_div_pos e rate He Hpos) as [_ Hrem].
  pose proof (Z.mod_pos_bound e rate Hpos) as Hm.
  destruct (negb _); intros E; inversion E; [|by subst]. clear E0.
  unfold refill. cbn [stamp level].
  assert (time56.Since (time56.Unix now) (time56.Sub (time56.Unix now) (Z.rem e rate))
          = Z.rem e rate) as ->.
  { rewrite Sub_Unix, Since_Unix by lia. lia. }
  destruct (Z.leb_spec (Z.rem e rate) 0); [reflexivity|].
  destruct (Z.eqb_spec rate 0); [lia|].
  rewrite Hrem, Z.quot_small by lia.
  reflexivity.
Qed.

(** Two and a half intervals after the stamp, twice. *)
Lemma refill_twice_witness :
  refill (newTokenBucket 4 2000) 2500 1000 5 = Ret (newTokenBucket 4 2000).
Proof.
  apply (refill_twice (newTokenBucket 2 0) 2500 1000 5).
  reflexivity.
Defined.

(** ** What a call writes *)

Lemma with_buckets_same t : with_buckets t (buckets t) = t.
Proof. by destruct t. Qed.

Lemma tokenBucket_eqb_eq a b : tokenBucket_eqb a b = true -> a = b.
Proof.
  unfold tokenBucket_eqb. rewrite andb_true_iff, !Z.eqb_eq.
  destruct a, b. simpl. by intros [-> ->].
Qed.

Lemma same_but_buckets_refl t : same_but_buckets t t.
Proof. exists (buckets t). by rewrite with_buckets_same. Qed.

Lemma same_but_buckets_trans t1 t2 t3 :
  same_but_buckets t1 t2 -> same_but_buckets t2 t3 -> same_but_buckets t1 t3.
Proof.
  intros (s & -> & Hs) (s' & -> & Hs'). exists s'.
  split; [reflexivity|]. simpl in Hs'. congruence.
Qed.

Lemma takeTokenInner_loop_same_but_buckets fuel i rate now t :
  same_but_buckets t (snd (takeTokenInner_loop fuel i rate now t)).
Proof.
  revert t. induction fuel as [|fuel IH]; intros t; simpl;
    [apply same_but_buckets_refl|].
  unfold mbind, buckets_Get, reads, lift, mret.
  destruct (slice_Get _ _); simpl; try apply same_but_buckets_refl.
  destruct (refill _ _ _ _); simpl; try apply same_but_buckets_refl.
  destruct (take _) as [u tk].
  destruct (negb (tokenBucket_eqb _ _)); simpl; try apply same_but_buckets_refl.
  unfold buckets_CompareAndSwap, slice_CompareAndSwap.
  destruct (i <? 0); simpl; try apply same_but_buckets_refl.
  destruct (buckets t !! Z.to_nat i) as [w|]; simpl;
    try apply same_but_buckets_refl.
  destruct (w =? _); simpl.
  - exists (<[Z.to_nat i := packed u]> (buckets t)).
    split; [reflexivity|apply length_insert].
  - eapply same_but_buckets_trans; [|apply IH].
    by exists (buckets t).
Qed.

Lemma run_same_but_buckets fuel cs t : same_but_buckets t (snd (run fuel cs t)).
Proof.
  revert t. induction cs as [|c cs IH]; intros t; simpl;
    [apply same_but_buckets_refl|].
  assert (same_but_buckets t (snd (do_call fuel c t))) as Hc.
  { destruct c; simpl.
    - rewrite Check_state. apply same_but_buckets_refl.
    - apply takeTokenInner_loop_same_but_buckets. }
  destruct (do_call fuel c t) as [[b| |] t']; simpl in *; auto.
  specialize (IH t').
  destruct (run fuel cs t') as [[bs o] t'']. simpl in *.
  by eapply same_but_buckets_trans.
Qed.

(** No call ever changes the configuration or the size of the array: after
    any sequence of [Check] and [TakeToken] calls, whether it ran to its end
    or a panic cut it short, the limiter is the one before with other words
    in an array of the same length. *)
Theorem calls_change_only_the_words fuel cs t :
  same_but_buckets t (snd (run fuel cs t))
  /\ bucketMask (snd (run fuel cs t)) = bucketMask t
  /\ burstCapacity (snd (run fuel cs t)) = burstCapacity t
  /\ refillIntervalNanos (snd (run fuel cs t)) = refillIntervalNanos t
  /\ numBuckets (snd (run fuel cs t)) = numBuckets t
  /\ refillRate (snd (run fuel cs t)) = refillRate t
  /\ refillRateUnit (snd (run fuel cs t)) = refillRateUnit t
  /\ length (buckets (snd (run fuel cs t))) = length (buckets t).
Proof.
  pose proof (run_same_but_buckets fuel cs t) as H.
  split; [exact H|].
  destruct H as (s & -> & Hs). by repeat split.
Qed.

(** One iteration of [takeTokenInner] on a bucket within the array is:
    decode the word, refill, take, and store the result packed. *)
Lemma takeTokenInner_stores fuel i rate now t w :
  0 <= i -> buckets t !! Z.to_nat i = Some w -> is_uint64 w ->
  takeTokenInner (S fuel) i rate now t
  = match refill (unpack w) now rate (burstCapacity t) with
    | Ret r =>
        (Ret (snd (take r)),
         with_buckets t (<[Z.to_nat i := packed (fst (take r))]> (buckets t)))
    | Panic m => (Panic m, t)
    | Spin => (Spin, t)
    end.
Proof.
  intros Hi E Hw. rewrite (takeTokenInner_lookup fuel i rate now t w Hi E).
  unfold attempt. destruct (refill _ _ _ _) as [r| |]; try reflexivity.
  destruct (take r) as [u tk]. cbn [fst snd].
  destruct (tokenBucket_eqb u (unpack w)) eqn:Eq; cbn [negb]; [|reflexivity].
  apply tokenBucket_eqb_eq in Eq. subst u.
  rewrite packed_unpack by exact Hw.
  by rewrite list_insert_id, with_buckets_same.
Qed.

(** [takeTokenInner] on bucket [i], at any rate: it answers whether the
    refilled bucket holds a token; it leaves in bucket [i] the refilled bucket
    after [take]; it leaves every other bucket as it was; and when [refill]
    panics it has written nothing. *)
Theorem takeTokenInner_touches_one_bucket fuel i rate now t w :
  0 <= i -> buckets t !! Z.to_nat i = Some w -> is_uint64 w ->
  (forall r, refill (unpack w) now rate (burstCapacity t) = Ret r ->
     fst (takeTokenInner (S fuel) i rate now t) = Ret (0 <? level r)
     /\ buckets (snd (takeTokenInner (S fuel) i rate now t)) !! Z.to_nat i
        = Some (packed (fst (take r))))
  /\ (forall m, refill (unpack w) now rate (burstCapacity t) = Panic m ->
        takeTokenInner (S fuel) i rate now t = (Panic m, t))
  /\ (forall j, j <> Z.to_nat i ->
        buckets (snd (takeTokenInner (S fuel) i rate now t)) !! j
        = buckets t !! j).
Proof.
  intros Hi E Hw.
  rewrite (takeTokenInner_stores fuel i rate now t w Hi E Hw).
  pose proof (lookup_lt_Some _ _ _ E) as Hlt.
  split; [|split].
  - intros r ->. cbn [fst snd buckets with_buckets]. split.
    + unfold take. by destruct (0 <? level r).
    + by rewrite list_lookup_insert_eq.
  - by intros m ->.
  - intros j Hj. destruct (refill _ _ _ _); cbn [fst snd]; try reflexivity.
    cbn [buckets with_buckets]. by rewrite list_lookup_insert_ne.
Qed.

(** The second of four buckets, two tokens' worth of time after its stamp. *)
Lemma takeTokenInner_touches_one_bucket_witness :
  fst (takeTokenInner 1 1 second (2 * second) four_buckets) = Ret true
  /\ buckets (snd (takeTokenInner 1 1 second (2 * second) four_buckets)) !! 0%nat
     = Some (packed (newTokenBucket 5 0)).
Proof.
  destruct (takeTokenInner_touches_one_bucket 0 1 second (2 * second)
              four_buckets (packed (newTokenBucket 5 0)))
    as (H & _ & Hframe).
  - lia.
  - reflexivity.
  - vm_compute. split; congruence.
  - split.
    + apply (H (newTokenBucket 5 0)). reflexivity.
    + rewrite Hframe by (vm_compute; lia). reflexivity.
Defined.

(** Only a successful [TakeToken] writes: when the call answers false, or
    does not return, the limiter is left exactly as it was. *)
Theorem TakeToken_rejected_writes_nothing fuel id now t :
  limiter_ok t ->
  fst (TakeToken (S fuel) id now t) <> Ret true ->
  snd (TakeToken (S fuel) id now t) = t.
Proof.
  intros Hok. destruct (index_lookup t id Hok) as (H0 & w & E).
  destruct (limiter_ok_word t _ w Hok E) as [Hw Hl].
  destruct (unpack_range w Hw) as [Hu8 _].
  unfold TakeToken. rewrite (takeTokenInner_stores fuel _ _ now t w H0 E Hw).
  destruct (refill _ _ _ _) as [r| |] eqn:Er; cbn [fst snd]; try reflexivity.
  pose proof (refill_level _ _ _ _ _ (ok_capacity _ Hok) Hl Er) as Hr.
  unfold take. destruct (Z.ltb_spec 0 (level r)) as [|Hz]; cbn [fst snd];
    [congruence|].
  intros _.
  assert (r = unpack w) as ->.
  { apply (refill_same_level _ _ _ _ _ Er). unfold level_in_range in Hl. lia. }
  rewrite packed_unpack by exact Hw.
  by rewrite list_insert_id, with_buckets_same.
Qed.

(** The race limiter, once its two tokens are gone. *)
Lemma TakeToken_rejected_writes_nothing_witness :
  snd (TakeToken 1 (list_byte_of_string "x") 0 (with_buckets race_limiter [0]))
  = with_buckets race_limiter [0].
Proof.
  apply TakeToken_rejected_writes_nothing.
  - split; simpl.
    + unfold is_uint8; lia.
    + apply Forall_cons. split; [unfold is_uint64; lia|apply Forall_nil_2].
    + apply Forall_cons. split; [|apply Forall_nil_2].
      vm_compute. split; congruence.
    + reflexivity.
    + reflexivity.
    + exists 0. lia.
  - vm_compute. discriminate.
Defined.

(** [Check] and [TakeToken] agree: on the same limiter at the same instant
    they give the same answer, and one panics exactly when the other does. *)
Theorem Check_agrees_with_TakeToken fuel id now t :
  limiter_ok t ->
  fst (Check id now t) = fst (TakeToken (S fuel) id now t).
Proof.
  intros Hok. destruct (index_lookup t id Hok) as (H0 & w & E).
  destruct (limiter_ok_word t _ w Hok E) as [Hw _].
  unfold Check, TakeToken.
  rewrite (checkInner_lookup _ _ now t w H0 E).
  rewrite (takeTokenInner_stores fuel _ _ now t w H0 E Hw).
  destruct (refill _ _ _ _) as [r| |]; cbn [fst snd]; try reflexivity.
  unfold take. by destruct (0 <? level r).
Qed.

(** On the four-bucket limiter, a second after its construction. *)
Lemma Check_agrees_with_TakeToken_witness :
  fst (Check (list_byte_of_string "x") second four_buckets)
  = fst (TakeToken 1 (list_byte_of_string "x") second four_buckets).
Proof. apply Check_agrees_with_TakeToken. exact four_buckets_ok. Defined.

(** ** Waiting, and bursts *)

(** The closed form of [refill] after a wait. *)
Lemma refill_wait L T rate cap E :
  is_uint8 cap -> 0 <= L <= cap -> 0 < rate -> 0 <= E < 2 ^ 55 ->
  refill (newTokenBucket L (time56.Unix T)) (T + E) rate cap
  = Ret (if (L <? cap) && (0 <? E / rate)
         then newTokenBucket (Z.min cap (L + E / rate))
                (time56.Unix (T + rate * (E / rate)))
         else newTokenBucket L (time56.Unix T)).
Proof.
  intros Hc HL Hr HE.
  rewrite refill_meets_spec; cbn [level];
    [|unfold is_uint8 in *; lia|exact Hc|lia|lia].
  f_equal. unfold refill_spec, wrappingDifference. cbn [level stamp].
  rewrite Since_Unix by lia.
  replace (T + E - T) with E by lia.
  pose proof (Z.div_mod E rate ltac:(lia)) as Hdm.
  pose proof (Z.mod_pos_bound E rate Hr) as Hm.
  pose proof (Z.div_pos E rate ltac:(lia) Hr) as Hq.
  destruct (Z.leb_spec E 0) as [He|He].
  { assert (E = 0) as -> by lia. rewrite Z.div_0_l by lia.
    by rewrite andb_false_r. }
  destruct (Z.leb_spec (E / rate) 0) as [Hz|Hz].
  { destruct (Z.ltb_spec 0 (E / rate)); [lia|]. by rewrite andb_false_r. }
  destruct (Z.ltb_spec 0 (E / rate)); [|lia]. rewrite andb_true_r.
  destruct (Z.ltb_spec L cap) as [Hlt|Hge].
  - destruct (Z.eqb_spec (Z.min cap (L + E / rate)) L); [lia|].
    f_equal. rewrite !Unix_mod, Zplus_mod_idemp_l. f_equal. lia.
  - destruct (Z.eqb_spec (Z.min cap (L + E / rate)) L); [reflexivity|lia].
Qed.

(** [refill] after a wait of [E] nanoseconds, in closed form: a bucket below
    its capacity gains [E / rate] tokens, up to the capacity, and its stamp
    advances by the whole intervals in [E], also by those whose tokens the
    capacity discards; a full bucket, or a wait shorter than one interval,
    leaves level and stamp as they were. *)
Theorem refill_after_wait L T rate cap E :
  is_uint8 cap -> 0 <= L <= cap -> 0 < rate -> 0 <= E < 2 ^ 55 ->
  refill (newTokenBucket L (time56.Unix T)) (T + E) rate cap
  = Ret (if (L <? cap) && (0 <? E / rate)
         then newTokenBucket (Z.min cap (L + E / rate))
                (time56.Unix (T + rate * (E / rate)))
         else newTokenBucket L (time56.Unix T)).
Proof. apply refill_wait. Qed.

(** Three tokens below capacity 5, ten and a half intervals later. *)
Lemma refill_after_wait_witness :
  refill (newTokenBucket 2 (time56.Unix 7)) (7 + 10500) 1000 5
  = Ret (newTokenBucket 5 (time56.Unix 10007)).
Proof.
  rewrite (refill_after_wait 2 7 1000 5 10500).
  - reflexivity.
  - unfold is_uint8; lia.
  - lia.
  - lia.
  - lia.
Defined.

Lemma run_cons_ret fuel c cs t b t' :
  do_call fuel c t = (Ret b, t') ->
  answers (run fuel (c :: cs) t) = b :: answers (run fuel cs t')
  /\ snd (fst (run fuel (c :: cs) t)) = snd (fst (run fuel cs t'))
  /\ snd (run fuel (c :: cs) t) = snd (run fuel cs t').
Proof.
  intros E. simpl. rewrite E.
  by destruct (run fuel cs t') as [[bs o] t''].
Qed.

(** Calls for one identifier at an instant at which its bucket accrues
    nothing: they succeed while tokens last, then fail. *)
Lemma burst_calm fuel id now n : forall t w,
  limiter_ok t ->
  buckets t !! Z.to_nat (index t id) = Some w ->
  calm (refillIntervalNanos t) now (stamp (unpack w)) ->
  let k := Nat.min n (Z.to_nat (level (unpack w))) in
  answers (run (S fuel) (replicate n (CallTakeToken id now)) t)
  = replicate k true ++ replicate (n - k) false
  /\ snd (fst (run (S fuel) (replicate n (CallTakeToken id now)) t)) = Ret tt
  /\ bucket_level (snd (run (S fuel) (replicate n (CallTakeToken id now)) t))
       (index t id)
     = level (unpack w) - Z.of_nat k.
Proof.
  induction n as [|n IH]; intros t w Hok E Hcalm; cbn zeta.
  - simpl. unfold answers, bucket_level. simpl. rewrite E. split; [done|].
    split; [done|lia].
  - destruct (limiter_ok_word t _ w Hok E) as [Hw Hl].
    destruct (unpack_range w Hw) as [Hu8 Hts].
    pose proof (refill_calm _ _ _ (burstCapacity t) Hcalm) as Hre.
    destruct (TakeToken_attempt fuel id now t Hok) as (w' & E' & Et).
    rewrite E in E'. inversion E'; subst w'. clear E'.
    pose proof (TakeToken_ok (S fuel) id now t Hok) as Hok1.
    cbn [replicate].
    destruct (attempt_no_refill w now _ _ Hw Hre) as [[Hp Ea]|[Hz Ea]];
      rewrite Ea in Et.
    + rewrite Et in Hok1. cbn [snd] in Hok1.
      destruct (run_cons_ret (S fuel) (CallTakeToken id now)
                  (replicate n (CallTakeToken id now)) t _ _ Et)
        as (-> & -> & ->).
      set (w1 := packed {| level := level (unpack w) - 1;
                           stamp := stamp (unpack w) |}) in *.
      set (t1 := with_buckets t (<[Z.to_nat (index t id) := w1]> (buckets t))) in *.
      assert (unpack w1 = {| level := level (unpack w) - 1;
                             stamp := stamp (unpack w) |}) as Hu
        by (apply unpack_packed; [cbn [level]; lia|exact Hts]).
      assert (buckets t1 !! Z.to_nat (index t1 id) = Some w1) as E1.
      { change (index t1 id) with (index t id). unfold t1. cbn [buckets with_buckets].
        apply list_lookup_insert_eq. by eapply lookup_lt_Some. }
      assert (calm (refillIntervalNanos t1) now (stamp (unpack w1))) as Hcalm1
        by (by rewrite Hu).
      destruct (IH t1 w1 Hok1 E1 Hcalm1) as (Ha & Ho & Hb).
      rewrite Hu in Ha, Hb. cbn [level] in Ha, Hb.
      change (index t1 id) with (index t id) in Hb.
      rewrite Ha, Ho, Hb.
      assert (Nat.min (S n) (Z.to_nat (level (unpack w)))
              = S (Nat.min n (Z.to_nat (level (unpack w) - 1)))) as -> by lia.
      split; [reflexivity|]. split; [reflexivity|lia].
    + destruct (run_cons_ret (S fuel) (CallTakeToken id now)
                  (replicate n (CallTakeToken id now)) t _ _ Et)
        as (-> & -> & ->).
      destruct (IH t w Hok E Hcalm) as (Ha & Ho & Hb).
      rewrite Ha, Ho, Hb, Hz. simpl Z.to_nat. rewrite !Nat.min_0_r.
      rewrite !Nat.sub_0_r. split; [reflexivity|]. split; [reflexivity|lia].
Qed.

(** A burst: [n] calls of [TakeToken] for one identifier, at an instant at
    which its bucket accrues nothing, answer true as many times as the bucket
    holds tokens and false from then on, and leave in the bucket the tokens
    they did not take. *)
Theorem TakeToken_burst fuel id now n t w :
  limiter_ok t ->
  buckets t !! Z.to_nat (index t id) = Some w ->
  calm (refillIntervalNanos t) now (stamp (unpack w)) ->
  answers (run (S fuel) (replicate n (CallTakeToken id now)) t)
  = replicate (Nat.min n (Z.to_nat (level (unpack w)))) true
    ++ replicate (n - Nat.min n (Z.to_nat (level (unpack w)))) false
  /\ bucket_level (snd (run (S fuel) (replicate n (CallTakeToken id now)) t))
       (index t id)
     = level (unpack w) - Z.of_nat (Nat.min n (Z.to_nat (level (unpack w)))).
Proof.
  intros Hok E Hcalm.
  destruct (burst_calm fuel id now n t w Hok E Hcalm) as (Ha & _ & Hb).
  by split.
Qed.

(** Seven calls on the identifier "x" of the four-bucket limiter, half a
    second after its construction. *)
Lemma TakeToken_burst_witness :
  answers (run 1 (replicate 7 (CallTakeToken (list_byte_of_string "x") 500000000))
             four_buckets)
  = [true; true; true; true; true; false; false].
Proof.
  destruct (TakeToken_burst 0 (list_byte_of_string "x") 500000000 7 four_buckets
              (packed (newTokenBucket 5 0)) four_buckets_ok) as [H _].
  - reflexivity.
  - right. right. vm_compute. reflexivity.
  - rewrite H. reflexivity.
Defined.

Lemma take_positive L s :
  0 < L -> is_uint8 L ->
  take (newTokenBucket L s) = (newTokenBucket (L - 1) s, true).
Proof.
  intros Hp [H0 H1]. unfold take. cbn [level stamp].
  destruct (Z.ltb_spec 0 L); [|lia].
  rewrite uint8_id by (unfold is_uint8; lia). reflexivity.
Qed.

(** After an idle interval a full bucket yields one token more than its
    capacity in one instant.  The first [TakeToken] leaves the stamp where it
    was, because [refill] does not touch a full bucket; the second call's
    [refill] then credits the idle time and fills the bucket again.  So
    [burstCapacity + 1] calls in the same instant succeed, and the next one
    fails. *)
Theorem burst_after_idle fuel id T E t w :
  limiter_ok t ->
  buckets t !! Z.to_nat (index t id) = Some w ->
  unpack w = newTokenBucket (burstCapacity t) (time56.Unix T) ->
  1 <= burstCapacity t ->
  0 < refillIntervalNanos t ->
  refillIntervalNanos t <= E < 2 ^ 55 ->
  answers (run (S fuel)
             (replicate (Z.to_nat (burstCapacity t) + 2) (CallTakeToken id (T + E)))
             t)
  = replicate (Z.to_nat (burstCapacity t) + 1) true ++ [false].
Proof.
  intros Hok E0 Hunp Hcap Hrate HE.
  set (cap := burstCapacity t) in *. set (rate := refillIntervalNanos t) in *.
  set (now := T + E). set (c := CallTakeToken id now).
  pose proof (ok_capacity _ Hok) as Hc. fold cap in Hc.
  destruct (index_lookup t id Hok) as (H0 & _).
  destruct (limiter_ok_word t _ w Hok E0) as [Hw _].
  pose proof (Unix_is_time T) as HT.
  assert (1 <= E / rate) as Hq by (apply Z.div_le_lower_bound; lia).
  pose proof (Z.div_mod E rate ltac:(lia)) as Hdm.
  pose proof (Z.mod_pos_bound E rate Hrate) as Hm.
  (* the first call: the full bucket is not refilled *)
  set (w1 := packed (newTokenBucket (cap - 1) (time56.Unix T))).
  set (t1 := with_buckets t (<[Z.to_nat (index t id) := w1]> (buckets t))).
  assert (do_call (S fuel) c t = (Ret true, t1)) as Et1.
  { unfold c. cbn [do_call]. unfold TakeToken.
    rewrite (takeTokenInner_stores fuel _ _ now t w H0 E0 Hw), Hunp.
    fold cap rate. unfold now.
    rewrite (refill_wait cap T rate cap E) by (auto; lia).
    rewrite Z.ltb_irrefl. cbn [andb].
    rewrite take_positive by (auto; lia). reflexivity. }
  pose proof (do_call_ok (S fuel) c t Hok) as Hok1.
  rewrite Et1 in Hok1. cbn [snd] in Hok1.
  assert (unpack w1 = newTokenBucket (cap - 1) (time56.Unix T)) as Hu1
    by (apply unpack_packed; [cbn [level]; lia|exact HT]).
  assert (buckets t1 !! Z.to_nat (index t id) = Some w1) as E1.
  { unfold t1. cbn [buckets with_buckets].
    apply list_lookup_insert_eq. by eapply lookup_lt_Some. }
  destruct (limiter_ok_word t1 _ w1 Hok1 E1) as [Hw1 _].
  (* the second call: the idle time fills the bucket again *)
  set (s2 := time56.Unix (T + rate * (E / rate))).
  set (w2 := packed (newTokenBucket (cap - 1) s2)).
  set (t2 := with_buckets t1 (<[Z.to_nat (index t id) := w2]> (buckets t1))).
  assert (do_call (S fuel) c t1 = (Ret true, t2)) as Et2.
  { unfold c. cbn [do_call]. unfold TakeToken.
    change (index t1 id) with (index t id).
    rewrite (takeTokenInner_stores fuel _ _ now t1 w1 H0 E1 Hw1), Hu1.
    change (refillIntervalNanos t1) with rate.
    change (burstCapacity t1) with cap. unfold now.
    rewrite (refill_wait (cap - 1) T rate cap E)
      by (auto; unfold is_uint8 in Hc; lia).
    destruct (Z.ltb_spec (cap - 1) cap); [|lia].
    destruct (Z.ltb_spec 0 (E / rate)); [|lia]. cbn [andb].
    rewrite Z.min_l by lia.
    rewrite take_positive by (auto; lia). reflexivity. }
  pose proof (do_call_ok (S fuel) c t1 Hok1) as Hok2.
  rewrite Et2 in Hok2. cbn [snd] in Hok2.
  assert (unpack w2 = newTokenBucket (cap - 1) s2) as Hu2
    by (apply unpack_packed; [cbn [level]; lia|apply Unix_is_time]).
  assert (buckets t2 !! Z.to_nat (index t2 id) = Some w2) as E2.
  { change (index t2 id) with (index t id). unfold t2. cbn [buckets with_buckets].
    apply list_lookup_insert_eq. by eapply lookup_lt_Some. }
  (* the other calls: less than one interval is left *)
  assert (calm (refillIntervalNanos t2) now (stamp (unpack w2))) as Hcalm.
  { right. right. rewrite Hu2. cbn [stamp]. change (refillIntervalNanos t2) with rate.
    unfold s2, now. rewrite Since_Unix by lia. lia. }
  destruct (burst_calm fuel id now (Z.to_nat cap) t2 w2 Hok2 E2 Hcalm)
    as (Ha & _ & _).
  rewrite Hu2 in Ha. cbn [level] in Ha.
  replace (Z.to_nat cap + 2)%nat with (S (S (Z.to_nat cap))) by lia.
  cbn [replicate]. fold c.
  destruct (run_cons_ret (S fuel) c (c :: replicate (Z.to_nat cap) c) t _ _ Et1)
    as (-> & _ & _).
  destruct (run_cons_ret (S fuel) c (replicate (Z.to_nat cap) c) t1 _ _ Et2)
    as (-> & _ & _).
  fold c in Ha. rewrite Ha.
  replace (Nat.min (Z.to_nat cap) (Z.to_nat (cap - 1)))
    with (Z.to_nat cap - 1)%nat by lia.
  replace (Z.to_nat cap - (Z.to_nat cap - 1))%nat with 1%nat by lia.
  replace (Z.to_nat cap + 1)%nat with (S (S (Z.to_nat cap - 1))) by lia.
  reflexivity.
Qed.

(** The four-bucket limiter of capacity 5, three seconds idle: six calls in
    one instant succeed. *)
Lemma burst_after_idle_witness :
  answers (run 1 (replicate 7 (CallTakeToken (list_byte_of_string "x") (3 * second)))
             four_buckets)
  = [true; true; true; true; true; true; false].
Proof.
  apply (burst_after_idle 0 (list_byte_of_string "x") 0 (3 * second) four_buckets
           (packed (newTokenBucket 5 0)) four_buckets_ok).
  - reflexivity.
  - reflexivity.
  - simpl; lia.
  - simpl; unfold second; lia.
  - simpl; unfold second; lia.
Defined.

(** ** The limiter as constructed *)

(** The limiter the constructor returns: [numBuckets], a power of two, words
    in the array, each one the packing of a full bucket stamped with the
    clock; the mask [numBuckets - 1]; the interval [nanoRate] gives.  At the
    instant of construction [Check] answers whether the capacity is
    positive, for every identifier, and [m] calls of [TakeToken] for one
    identifier are admitted up to the burst capacity. *)
Theorem constructor_postcondition n cap r unit clock t :
  is_uint64 n -> is_uint8 cap ->
  NewTokenBucketLimiter n cap r unit clock = Ret (Some t, None) ->
  is_pow2 n
  /\ buckets t
     = replicate (Z.to_nat n) (packed (newTokenBucket cap (time56.Unix clock)))
  /\ (forall i w, buckets t !! i = Some w ->
        unpack w = newTokenBucket cap (time56.Unix clock))
  /\ bucketMask t = n - 1 /\ burstCapacity t = cap /\ numBuckets t = n
  /\ refillIntervalNanos t = nanoRate unit r
  /\ refillRate t = r /\ refillRateUnit t = unit
  /\ (forall id, Check id clock t = (Ret (0 <? cap), t))
  /\ (forall id fuel m,
        answers (run (S fuel) (replicate m (CallTakeToken id clock)) t)
        = replicate (Nat.min m (Z.to_nat cap)) true
          ++ replicate (m - Nat.min m (Z.to_nat cap)) false).
Proof.
  intros Hn Hc E.
  destruct (fresh_limiter n cap r unit clock t Hn Hc E) as (Hok & Hq & _ & _).
  destruct (NewTokenBucketLimiter_limiter _ _ _ _ _ _ _ Hn E) as (_ & Hp & _ & Ht).
  split; [exact Hp|].
  assert (unpack (packed (newTokenBucket cap (time56.Unix clock)))
          = newTokenBucket cap (time56.Unix clock)) as Hu.
  { apply unpack_packed; [cbn [level]; unfold is_uint8 in Hc; lia|].
    apply Unix_is_time. }
  assert (forall i w, buckets t !! i = Some w ->
            unpack w = newTokenBucket cap (time56.Unix clock)) as Hall.
  { intros i w Ew. rewrite Ht in Ew. cbn [buckets] in Ew.
    apply lookup_replicate_1 in Ew as [-> _]. exact Hu. }
  assert (forall i w, buckets t !! i = Some w ->
            calm (refillIntervalNanos t) clock (stamp (unpack w))) as Hcalm.
  { intros i w Ew. rewrite (Hall i w Ew). cbn [stamp]. right. left.
    rewrite Since_Unix by lia. lia. }
  split; [by rewrite Ht|]. split; [exact Hall|].
  repeat (split; [by rewrite Ht|]).
  split.
  - intros id. destruct (index_lookup t id Hok) as (H0 & w & Ew).
    unfold Check. rewrite (checkInner_lookup _ _ _ _ w H0 Ew).
    rewrite (refill_calm _ _ _ _ (Hcalm _ w Ew)), (Hall _ w Ew).
    reflexivity.
  - intros id fuel m. destruct (index_lookup t id Hok) as (H0 & w & Ew).
    destruct (burst_calm fuel id clock m t w Hok Ew (Hcalm _ w Ew)) as (Ha & _).
    rewrite (Hall _ w Ew) in Ha. exact Ha.
Qed.

(** Sixty-four buckets of three tokens. *)
Lemma constructor_postcondition_witness :
  Check id_x 0 sixty_four_buckets = (Ret true, sixty_four_buckets).
Proof.
  destruct (constructor_postcondition 64 3 1%float second 0 sixty_four_buckets)
    as (_ & _ & _ & _ & _ & _ & _ & _ & _ & H & _).
  - unfold is_uint64; lia.
  - unfold is_uint8; lia.
  - vm_compute. reflexivity.
  - exact (H id_x).
Defined.

(** ** When the calls fail *)

(** [Check] and [TakeToken] never fail on the array: the index they compute
    is always inside it.  They fail in one case only, on the division of
    [refill]: when the interval of the limiter is zero and time has passed
    since the stamp of the identifier's bucket; in every other case both
    return a boolean. *)
Theorem calls_panic_iff fuel id now t :
  limiter_ok t ->
  exists w,
    buckets t !! Z.to_nat (index t id) = Some w
    /\ (refillIntervalNanos t = 0
        /\ 0 < time56.Since (time56.Unix now) (stamp (unpack w)) ->
        Check id now t = (Panic "runtime error: integer divide by zero", t)
        /\ TakeToken (S fuel) id now t
           = (Panic "runtime error: integer divide by zero", t))
    /\ (refillIntervalNanos t <> 0
        \/ time56.Since (time56.Unix now) (stamp (unpack w)) <= 0 ->
        exists b, fst (Check id now t) = Ret b
                  /\ fst (TakeToken (S fuel) id now t) = Ret b).
Proof.
  intros Hok. destruct (index_lookup t id Hok) as (H0 & w & E).
  destruct (limiter_ok_word t _ w Hok E) as [Hw _].
  exists w. split; [exact E|].
  unfold Check, TakeToken.
  rewrite (checkInner_lookup _ _ now t w H0 E).
  rewrite (takeTokenInner_stores fuel _ _ now t w H0 E Hw).
  split.
  - intros [Hr He].
    assert (refill (unpack w) now (refillIntervalNanos t) (burstCapacity t)
            = Panic "runtime error: integer divide by zero") as ->; [|done].
    unfold refill. rewrite Hr.
    destruct (Z.leb_spec (time56.Since (time56.Unix now) (stamp (unpack w))) 0);
      [lia|reflexivity].
  - intros H.
    assert (exists r, refill (unpack w) now (refillIntervalNanos t)
                        (burstCapacity t) = Ret r) as [r ->].
    { destruct H as [Hr|He]; [by apply refill_returns|].
      unfold refill.
      destruct (Z.leb_spec (time56.Since (time56.Unix now) (stamp (unpack w))) 0);
        [eauto|lia]. }
    exists (0 <? level r). cbn [fst snd]. split; [reflexivity|].
    unfold take. by destruct (0 <? level r).
Qed.

(** The limiter of zero rate, one nanosecond after its construction. *)
Lemma calls_panic_iff_witness :
  exists w,
    buckets zero_rate_limiter
      !! Z.to_nat (index zero_rate_limiter (list_byte_of_string "x")) = Some w
    /\ Check (list_byte_of_string "x") 1 zero_rate_limiter
       = (Panic "runtime error: integer divide by zero", zero_rate_limiter).
Proof.
  destruct (calls_panic_iff 0 (list_byte_of_string "x") 1 zero_rate_limiter)
    as (w & E & H & _).
  - split; simpl.
    + unfold is_uint8; lia.
    + apply Forall_cons. split; [|apply Forall_nil_2]. vm_compute. split; congruence.
    + apply Forall_cons. split; [|apply Forall_nil_2]. vm_compute. split; congruence.
    + reflexivity.
    + reflexivity.
    + exists 0. lia.
  - exists w. split; [exact E|].
    apply H. split; [reflexivity|].
    vm_compute in E. inversion E. vm_compute. reflexivity.
Defined.

(** A clock that stands still or steps back, by up to [2^55] nanoseconds
    behind the stamp of the identifier's bucket, refills nothing and fails
    nothing, whatever the rate: [Check] and [TakeToken] answer whether the
    bucket holds a token, and a token taken is one token less. *)
Theorem clock_regression fuel id now T t w :
  limiter_ok t ->
  buckets t !! Z.to_nat (index t id) = Some w ->
  stamp (unpack w) = time56.Unix T ->
  T - 2 ^ 55 <= now <= T ->
  Check id now t = (Ret (0 <? level (unpack w)), t)
  /\ fst (TakeToken (S fuel) id now t) = Ret (0 <? level (unpack w))
  /\ bucket_level (snd (TakeToken (S fuel) id now t)) (index t id)
     = Z.max 0 (level (unpack w) - 1).
Proof.
  intros Hok E Hs Hnow.
  destruct (index_lookup t id Hok) as (H0 & _).
  destruct (limiter_ok_word t _ w Hok E) as [Hw Hl].
  destruct (unpack_range w Hw) as [Hu8 Hts].
  assert (refill (unpack w) now (refillIntervalNanos t) (burstCapacity t)
          = Ret (unpack w)) as Hre.
  { apply refill_calm. right. left. rewrite Hs, Since_Unix by lia. lia. }
  unfold Check, TakeToken.
  rewrite (checkInner_lookup _ _ now t w H0 E), Hre.
  rewrite (takeTokenInner_stores fuel _ _ now t w H0 E Hw), Hre.
  cbn [fst snd]. split; [reflexivity|].
  unfold bucket_level. cbn [buckets with_buckets].
  rewrite list_lookup_insert_eq by (by eapply lookup_lt_Some).
  destruct (take_level (unpack w) Hu8) as [[Hp ->]|[Hz ->]]; cbn [fst snd].
  - destruct (Z.ltb_spec 0 (level (unpack w))); [|lia].
    split; [reflexivity|].
    rewrite unpack_packed by (cbn [level]; auto; lia). cbn [level]. lia.
  - rewrite Hz. split; [reflexivity|].
    rewrite packed_unpack by exact Hw. lia.
Qed.

(** The four-bucket limiter, stamped at 0, read a second before. *)
Lemma clock_regression_witness :
  Check (list_byte_of_string "x") (- second) four_buckets = (Ret true, four_buckets).
Proof.
  destruct (clock_regression 0 (list_byte_of_string "x") (- second) 0 four_buckets
              (packed (newTokenBucket 5 0)) four_buckets_ok) as [H _].
  - reflexivity.
  - reflexivity.
  - unfold second; lia.
  - exact H.
Defined.

(** ** Racing callers keep the invariant *)

(** Whatever the schedule of their loads and compare-and-swaps, racing
    [TakeToken] callers leave a limiter that satisfies the invariant - every
    word a bucket within the capacity, the array of its length - with the
    configuration it had, and no caller is lost or added. *)
Theorem racing_callers_keep_invariant t0 cs0 sched :
  limiter_ok t0 ->
  Forall (fun c => is_entered c = true) cs0 ->
  limiter_ok (shared (exec sched {| shared := t0; callers := cs0 |}))
  /\ same_but_buckets t0 (shared (exec sched {| shared := t0; callers := cs0 |}))
  /\ map caller_call (callers (exec sched {| shared := t0; callers := cs0 |}))
     = map caller_call cs0.
Proof.
  intros Hok Hent.
  destruct (exec_coherent t0 cs0 sched _ [] (coherent_initially t0 cs0 Hok Hent))
    as [lin Hcoh].
  split; [exact (coh_ok _ _ _ _ Hcoh)|]. split; [|exact (coh_calls _ _ _ _ Hcoh)].
  pose proof (run_same_but_buckets 1 (map ev_call lin) t0) as H.
  by rewrite (lin_run _ _ _ (coh_lin _ _ _ _ Hcoh)) in H.
Qed.

(** The race of three callers. *)
Lemma racing_callers_keep_invariant_witness :
  limiter_ok (shared (exec race_schedule
                        {| shared := race_limiter; callers := race_callers |})).
Proof.
  destruct (racing_callers_keep_invariant race_limiter race_callers race_schedule)
    as [H _].
  - split; simpl.
    + unfold is_uint8; lia.
    + apply Forall_cons. split; [|apply Forall_nil_2]. vm_compute. split; congruence.
    + apply Forall_cons. split; [|apply Forall_nil_2]. vm_compute. split; congruence.
    + reflexivity.
    + reflexivity.
    + exists 0. lia.
  - repeat constructor.
  - exact H.
Defined.

(** ** The limit on admissions *)

Lemma TakeToken_frame fuel id now t j :
  limiter_ok t -> j <> Z.to_nat (index t id) ->
  buckets (snd (TakeToken (S fuel) id now t)) !! j = buckets t !! j.
Proof.
  intros Hok Hj. destruct (index_lookup t id Hok) as (H0 & w & E).
  destruct (limiter_ok_word t _ w Hok E) as [Hw _].
  unfold TakeToken. rewrite (takeTokenInner_stores fuel _ _ now t w H0 E Hw).
  destruct (refill _ _ _ _); cbn [fst snd]; try reflexivity.
  cbn [buckets with_buckets]. by rewrite list_lookup_insert_ne.
Qed.

(** One call on a bucket stamped at instant [U], inside a window that ends at
    [D]: it returns, and what it admits it pays for, with a token of the
    bucket or with an interval of the time left in the window. *)
Lemma TakeToken_budget fuel id now t w U D :
  limiter_ok t -> 0 < refillIntervalNanos t ->
  buckets t !! Z.to_nat (index t id) = Some w ->
  stamp (unpack w) = time56.Unix U ->
  U <= D -> D - 2 ^ 55 < U -> D - 2 ^ 55 < now <= D ->
  exists b w' U',
    fst (TakeToken (S fuel) id now t) = Ret b
    /\ buckets (snd (TakeToken (S fuel) id now t)) !! Z.to_nat (index t id)
       = Some w'
    /\ stamp (unpack w') = time56.Unix U'
    /\ U <= U' <= D
    /\ ((if b then 1 else 0) + level (unpack w')) * refillIntervalNanos t
       + (D - U')
       <= level (unpack w) * refillIntervalNanos t + (D - U).
Proof.
  intros Hok Hrate E Hst HS HS' Hnow.
  set (rate := refillIntervalNanos t) in *. set (cap := burstCapacity t).
  destruct (index_lookup t id Hok) as (H0 & _).
  destruct (limiter_ok_word t _ w Hok E) as [Hw Hl].
  destruct (unpack_range w Hw) as [Hu8 Hts].
  pose proof (ok_capacity _ Hok) as Hc. fold cap in Hc, Hl.
  unfold level_in_range in Hl.
  pose proof (lookup_lt_Some _ _ _ E) as Hlt.
  (* what refill returns: a bucket stamped [U'], paid for in time *)
  assert (exists r U', refill (unpack w) now rate cap = Ret r
            /\ stamp r = time56.Unix U' /\ U <= U' <= D
            /\ level (unpack w) <= level r <= cap
            /\ level r * rate + (D - U') <= level (unpack w) * rate + (D - U))
    as (r & U' & Hre & Hsr & HS2 & Hlr & Hpay).
  { destruct (Z.lt_ge_cases now U) as [Hback|Hfwd].
    - exists (unpack w), U. split; [|repeat split; auto; lia].
      apply refill_calm. right. left. rewrite Hst, Since_Unix by lia. lia.
    - destruct (unpack w) as [L s] eqn:Hu. cbn [level stamp] in *. subst s.
      pose proof (refill_wait L U rate cap (now - U) Hc Hl Hrate
                    ltac:(lia)) as Hre.
      replace (U + (now - U)) with now in Hre by lia.
      pose proof (Z.div_pos (now - U) rate ltac:(lia) Hrate) as Hq.
      pose proof (Z.mul_div_le (now - U) rate Hrate) as Hqr.
      destruct ((L <? cap) && (0 <? (now - U) / rate)) eqn:Hb.
      + eexists _, (U + rate * ((now - U) / rate)).
        split; [exact Hre|]. cbn [level stamp].
        split; [reflexivity|]. split; [lia|]. split; [lia|]. nia.
      + eexists _, U. split; [exact Hre|]. cbn [level stamp].
        split; [reflexivity|]. split; [lia|]. split; lia. }
  unfold TakeToken. rewrite (takeTokenInner_stores fuel _ _ now t w H0 E Hw).
  fold rate cap. rewrite Hre. cbn [fst snd buckets with_buckets].
  rewrite list_lookup_insert_eq by exact Hlt.
  assert (is_uint8 (level r)) as Hr8 by (unfold is_uint8 in *; lia).
  assert (time56.is_time (stamp r)) as Hrt by (rewrite Hsr; apply Unix_is_time).
  destruct (take_level r Hr8) as [[Hp ->]|[Hz ->]]; cbn [fst snd].
  - exists true, (packed (newTokenBucket (level r - 1) (stamp r))), U'.
    rewrite unpack_packed by (cbn [level stamp]; auto; lia). cbn [level stamp].
    split; [reflexivity|]. split; [reflexivity|]. split; [exact Hsr|].
    split; [exact HS2|]. lia.
  - exists false, (packed r), U'.
    rewrite unpack_packed by (auto; lia).
    split; [reflexivity|]. split; [reflexivity|]. split; [exact Hsr|].
    split; [exact HS2|]. lia.
Qed.

Lemma run_budget fuel i D cs : forall t w U,
  limiter_ok t -> 0 < refillIntervalNanos t -> 0 <= i ->
  buckets t !! Z.to_nat i = Some w ->
  stamp (unpack w) = time56.Unix U ->
  U <= D -> D - 2 ^ 55 < U ->
  Forall (fun c => D - 2 ^ 55 < call_now c <= D) cs ->
  snd (fst (run (S fuel) cs t)) = Ret tt
  /\ successes t i cs (answers (run (S fuel) cs t)) * refillIntervalNanos t
     <= level (unpack w) * refillIntervalNanos t + (D - U).
Proof.
  induction cs as [|c cs IH]; intros t w U Hok Hrate Hi E Hst HS HS' Hcs.
  - cbn [run fst snd successes]. split; [reflexivity|].
    destruct (limiter_ok_word t _ w Hok E) as [_ [Hl _]].
    assert (0 <= level (unpack w) * refillIntervalNanos t) by nia. lia.
  - inversion Hcs as [|? ? Hc Hcs']; subst.
    destruct c as [id now|id now]; cbn [call_now] in Hc.
    + (* a Check changes nothing and counts for nothing *)
      destruct (calls_return t id now fuel Hok ltac:(lia)) as [[b Eb] _].
      assert (do_call (S fuel) (CallCheck id now) t = (Ret b, t)) as Ed
        by exact Eb.
      destruct (run_cons_ret (S fuel) _ cs t _ _ Ed) as (Ha & Ho & _).
      rewrite Ha, Ho. cbn [successes].
      by apply (IH t w U).
    + pose proof (TakeToken_ok (S fuel) id now t Hok) as Hok1.
      destruct (TakeToken_config (S fuel) id now t) as (Hm & _ & Hr & _).
      destruct (index_lookup t id Hok) as (Hi0 & _).
      destruct (decide (Z.to_nat (index t id) = Z.to_nat i)) as [Heq|Hne].
      * (* a call on the bucket *)
        assert (index t id = i) as Hidx by lia.
        rewrite <- Hidx in E.
        destruct (TakeToken_budget fuel id now t w U D Hok Hrate E Hst HS HS' Hc)
          as (b & w' & U' & Eb & Ew' & Hst' & HS2 & Hpay).
        destruct (TakeToken (S fuel) id now t) as [o t1] eqn:Et.
        cbn [fst snd] in *. subst o.
        assert (do_call (S fuel) (CallTakeToken id now) t = (Ret b, t1)) as Ed
          by exact Et.
        destruct (run_cons_ret (S fuel) _ cs t _ _ Ed) as (Ha & Ho & _).
        rewrite Ha, Ho. rewrite Hidx in Ew'.
        destruct (IH t1 w' U' Hok1 ltac:(lia) Hi Ew' Hst' ltac:(lia) ltac:(lia) Hcs')
          as (Ho1 & Hb1).
        split; [exact Ho1|].
        rewrite (successes_same_mask t t1) in Hb1 by exact Hm.
        rewrite Hr in Hb1.
        cbn [successes]. rewrite Hidx, Z.eqb_refl.
        destruct b; nia.
      * (* a call on another bucket *)
        destruct (calls_return t id now fuel Hok ltac:(lia)) as [_ (b & t1 & Et)].
        pose proof (TakeToken_frame fuel id now t (Z.to_nat i) Hok ltac:(lia)) as Hf.
        rewrite Et in Hok1, Hm, Hr, Hf. cbn [snd] in Hok1, Hm, Hr, Hf.
        assert (do_call (S fuel) (CallTakeToken id now) t = (Ret b, t1)) as Ed
          by exact Et.
        destruct (run_cons_ret (S fuel) _ cs t _ _ Ed) as (Ha & Ho & _).
        rewrite Ha, Ho. rewrite <- Hf in E.
        destruct (IH t1 w U Hok1 ltac:(lia) Hi E Hst HS HS' Hcs') as (Ho1 & Hb1).
        split; [exact Ho1|].
        rewrite (successes_same_mask t t1) in Hb1 by exact Hm.
        rewrite Hr in Hb1.
        cbn [successes].
        destruct (Z.eqb_spec (index t id) i) as [Hx|_]; [lia|].
        destruct b; exact Hb1.
Qed.

(** The limit holds: over any sequence of [Check] and [TakeToken] calls,
    for any identifiers, made at instants within [W] nanoseconds after the
    stamp of a bucket, in any order, the calls admitted on that bucket number
    at most its level plus one for every whole interval in [W]; and with a
    positive interval every call returns. *)
Theorem admissions_bounded fuel i T0 W cs t w :
  limiter_ok t -> 0 < refillIntervalNanos t -> 0 <= i ->
  buckets t !! Z.to_nat i = Some w ->
  stamp (unpack w) = time56.Unix T0 ->
  0 <= W < 2 ^ 55 ->
  Forall (fun c => T0 <= call_now c <= T0 + W) cs ->
  snd (fst (run (S fuel) cs t)) = Ret tt
  /\ successes t i cs (answers (run (S fuel) cs t))
     <= level (unpack w) + W / refillIntervalNanos t.
Proof.
  intros Hok Hrate Hi E Hst HW Hcs.
  destruct (run_budget fuel i (T0 + W) cs t w T0 Hok Hrate Hi E Hst
              ltac:(lia) ltac:(lia)) as [Ho Hb].
  { eapply Forall_impl; [exact Hcs|]. intros c Hc. simpl in Hc. lia. }
  split; [exact Ho|].
  apply Z.lt_succ_r.
  replace (Z.succ (level (unpack w) + W / refillIntervalNanos t))
    with (level (unpack w) + (W / refillIntervalNanos t + 1)) by lia.
  pose proof (Z.div_mod W (refillIntervalNanos t) ltac:(lia)).
  pose proof (Z.mod_pos_bound W (refillIntervalNanos t) Hrate).
  nia.
Qed.

(** Ten calls within three seconds on a bucket of five tokens: at most eight
    are admitted. *)
Lemma admissions_bounded_witness :
  successes four_buckets 3
    (replicate 10 (CallTakeToken (list_byte_of_string "x") (3 * second)))
    (answers (run 1 (replicate 10 (CallTakeToken (list_byte_of_string "x") (3 * second)))
                four_buckets))
  <= 5 + 3.
Proof.
  destruct (admissions_bounded 0 3 0 (3 * second)
              (replicate 10 (CallTakeToken (list_byte_of_string "x") (3 * second)))
              four_buckets (packed (newTokenBucket 5 0)) four_buckets_ok)
    as [_ H].
  - simpl; unfold second; lia.
  - lia.
  - reflexivity.
  - reflexivity.
  - unfold second; lia.
  - apply Forall_replicate. simpl. unfold second. lia.
  - exact H.
Defined.

(** ** Independent buckets, and waiting *)

Lemma TakeToken_stores fuel id now t w r :
  limiter_ok t ->
  buckets t !! Z.to_nat (index t id) = Some w ->
  refill (unpack w) now (refillIntervalNanos t) (burstCapacity t) = Ret r ->
  TakeToken (S fuel) id now t
  = (Ret (snd (take r)),
     with_buckets t (<[Z.to_nat (index t id) := packed (fst (take r))]> (buckets t))).
Proof.
  intros Hok E Hr. destruct (index_lookup t id Hok) as (H0 & _).
  destruct (limiter_ok_word t _ w Hok E) as [Hw _].
  unfold TakeToken. by rewrite (takeTokenInner_stores fuel _ _ now t w H0 E Hw), Hr.
Qed.

(** Calls on different buckets are independent: two [TakeToken] calls whose
    identifiers fall in different buckets give the same two answers and leave
    the same limiter in either order. *)
Theorem calls_on_different_buckets_commute fuel id1 now1 id2 now2 t :
  limiter_ok t -> refillIntervalNanos t <> 0 ->
  index t id1 <> index t id2 ->
  exists b1 b2 t',
    run (S fuel) [CallTakeToken id1 now1; CallTakeToken id2 now2] t
    = ([b1; b2], Ret tt, t')
    /\ run (S fuel) [CallTakeToken id2 now2; CallTakeToken id1 now1] t
       = ([b2; b1], Ret tt, t').
Proof.
  intros Hok Hrate Hne.
  destruct (index_lookup t id1 Hok) as (H1 & w1 & E1).
  destruct (index_lookup t id2 Hok) as (H2 & w2 & E2).
  destruct (refill_returns (unpack w1) now1 (refillIntervalNanos t)
              (burstCapacity t) Hrate) as [r1 Hr1].
  destruct (refill_returns (unpack w2) now2 (refillIntervalNanos t)
              (burstCapacity t) Hrate) as [r2 Hr2].
  pose proof (TakeToken_stores fuel id1 now1 t w1 r1 Hok E1 Hr1) as Et1.
  pose proof (TakeToken_stores fuel id2 now2 t w2 r2 Hok E2 Hr2) as Et2.
  pose proof (TakeToken_ok (S fuel) id1 now1 t Hok) as Hok1.
  pose proof (TakeToken_ok (S fuel) id2 now2 t Hok) as Hok2.
  rewrite Et1 in Hok1. rewrite Et2 in Hok2. cbn [snd] in Hok1, Hok2.
  set (p1 := packed (fst (take r1))) in *.
  set (p2 := packed (fst (take r2))) in *.
  set (t1 := with_buckets t (<[Z.to_nat (index t id1) := p1]> (buckets t))) in *.
  set (t2 := with_buckets t (<[Z.to_nat (index t id2) := p2]> (buckets t))) in *.
  assert (Z.to_nat (index t id1) <> Z.to_nat (index t id2)) as Hn by lia.
  assert (buckets t1 !! Z.to_nat (index t1 id2) = Some w2) as E12.
  { change (index t1 id2) with (index t id2). unfold t1. cbn [buckets with_buckets].
    by rewrite list_lookup_insert_ne. }
  assert (buckets t2 !! Z.to_nat (index t2 id1) = Some w1) as E21.
  { change (index t2 id1) with (index t id1). unfold t2. cbn [buckets with_buckets].
    by rewrite list_lookup_insert_ne. }
  pose proof (TakeToken_stores fuel id2 now2 t1 w2 r2 Hok1 E12 Hr2) as Et12.
  pose proof (TakeToken_stores fuel id1 now1 t2 w1 r1 Hok2 E21 Hr1) as Et21.
  exists (snd (take r1)), (snd (take r2)),
    (with_buckets t (<[Z.to_nat (index t id2) := p2]>
                       (<[Z.to_nat (index t id1) := p1]> (buckets t)))).
  split.
  - cbn [run do_call]. rewrite Et1, Et12. reflexivity.
  - cbn [run do_call]. rewrite Et2, Et21.
    change (index t2 id1) with (index t id1).
    unfold t2. cbn [buckets with_buckets].
    rewrite list_insert_insert_ne by exact Hn. reflexivity.
Qed.

(** The identifiers "a" and "x" fall in different buckets of four. *)
Lemma calls_on_different_buckets_commute_witness :
  exists b1 b2 t',
    run 1 [CallTakeToken id_a 0; CallTakeToken id_x second] four_buckets
    = ([b1; b2], Ret tt, t')
    /\ run 1 [CallTakeToken id_x second; CallTakeToken id_a 0] four_buckets
       = ([b2; b1], Ret tt, t').
Proof.
  apply (calls_on_different_buckets_commute 0 id_a 0 id_x second four_buckets
           four_buckets_ok).
  - simpl. unfold second. lia.
  - vm_compute. discriminate.
Defined.

(** Waiting never takes availability away: if [Check] answers true at one
    instant, it answers true at every later instant within [2^55]
    nanoseconds of the bucket's stamp, as long as nobody takes a token. *)
Theorem Check_stays_true id now1 now2 U t w :
  limiter_ok t -> 0 < refillIntervalNanos t ->
  buckets t !! Z.to_nat (index t id) = Some w ->
  stamp (unpack w) = time56.Unix U ->
  U <= now1 <= now2 -> now2 < U + 2 ^ 55 ->
  Check id now1 t = (Ret true, t) ->
  Check id now2 t = (Ret true, t).
Proof.
  intros Hok Hrate E Hst Hn1 Hn2.
  destruct (index_lookup t id Hok) as (H0 & _).
  destruct (limiter_ok_word t _ w Hok E) as [Hw Hl].
  pose proof (ok_capacity _ Hok) as Hc. unfold level_in_range in Hl.
  unfold Check. rewrite !(checkInner_lookup _ _ _ t w H0 E).
  destruct (unpack w) as [L s] eqn:Hu. cbn [level stamp] in *. subst s.
  pose proof (refill_wait L U (refillIntervalNanos t) (burstCapacity t)
                (now1 - U) Hc Hl Hrate ltac:(lia)) as R1.
  pose proof (refill_wait L U (refillIntervalNanos t) (burstCapacity t)
                (now2 - U) Hc Hl Hrate ltac:(lia)) as R2.
  replace (U + (now1 - U)) with now1 in R1 by lia.
  replace (U + (now2 - U)) with now2 in R2 by lia.
  rewrite R1, R2.
  assert ((now1 - U) / refillIntervalNanos t <= (now2 - U) / refillIntervalNanos t)
    as Hmono by (apply Z.div_le_mono; lia).
  pose proof (Z.div_pos (now1 - U) (refillIntervalNanos t) ltac:(lia) Hrate).
  destruct (Z.ltb_spec L (burstCapacity t));
    destruct (Z.ltb_spec 0 ((now1 - U) / refillIntervalNanos t));
    destruct (Z.ltb_spec 0 ((now2 - U) / refillIntervalNanos t));
    cbn [andb level]; intros Hchk; injection Hchk as Hb;
    apply Z.ltb_lt in Hb;
    match goal with
    | |- (Ret (0 <? ?x), _) = _ =>
        assert ((0 <? x) = true) as -> by (apply Z.ltb_lt; lia)
    end; reflexivity.
Qed.

(** An empty bucket: a token is there after one second, and after two. *)
Lemma Check_stays_true_witness :
  Check id_x (2 * second) (with_buckets race_limiter [0])
  = (Ret true, with_buckets race_limiter [0]).
Proof.
  apply (Check_stays_true id_x second (2 * second) 0 (with_buckets race_limiter [0]) 0).
  - split; simpl.
    + unfold is_uint8; lia.
    + apply Forall_cons. split; [unfold is_uint64; lia|apply Forall_nil_2].
    + apply Forall_cons. split; [|apply Forall_nil_2]. vm_compute. split; congruence.
    + reflexivity.
    + reflexivity.
    + exists 0. lia.
  - simpl. unfold second. lia.
  - reflexivity.
  - reflexivity.
  - unfold second. lia.
  - unfold second. lia.
  - vm_compute. reflexivity.
Defined.

(** [refill] only adds: for a bucket within its capacity and any rate, the
    bucket it returns holds at least as many tokens, at most the capacity,
    and has the same stamp unless it holds more tokens. *)
Theorem refill_only_adds b now rate cap b' :
  is_uint8 cap -> level_in_range cap b ->
  refill b now rate cap = Ret b' ->
  level b <= level b' <= cap
  /\ (level b' = level b -> b' = b)
  /\ (stamp b' <> stamp b -> level b < level b').
Proof.
  intros Hc Hl E.
  pose proof (refill_level b now rate cap b' Hc Hl E) as Hlev.
  pose proof (refill_same_level b now rate cap b' E) as Hsame.
  split; [exact Hlev|]. split; [exact Hsame|].
  intros Hs. destruct (Z.eq_dec (level b') (level b)) as [Heq|Hne]; [|lia].
  rewrite (Hsame Heq) in Hs. contradiction.
Qed.

(** Two tokens, two and a half intervals later. *)
Lemma refill_only_adds_witness :
  level (newTokenBucket 2 0) <= level (newTokenBucket 4 2000) <= 5.
Proof.
  destruct (refill_only_adds (newTokenBucket 2 0) 2500 1000 5 (newTokenBucket 4 2000))
    as [H _].
  - unfold is_uint8; lia.
  - unfold level_in_range; simpl; lia.
  - reflexivity.
  - exact H.
Defined.
